(** * Connection pools of xorm (pool.go)

    A shallow embedding of the three [IConnectPool] implementations of
    [pool.go] and the properties of the pooling subsystem that are stated
    about them.

    Conventions of the embedding.
    - A [*sql.DB] is [None] (Go's [nil]) or [Some a] for a live pointer [a].
    - A Go [int] is a [Z]; arithmetic on it wraps at 64 bits ([wrap]).
    - A method body runs in a small state monad over the receiver's fields
      and the trace of calls made on connection handles; a run-time panic
      (nil dereference, index out of range) stops the body and keeps the
      fields as they were at that point.
    - Every method of [SimpleConnectPool] holds [mutex] for its whole body
      (the deferred [Unlock] also runs on a panic), so the bodies are the
      atomic steps of the pool and the mutex itself is not a field of the
      model.
    - What the environment answers ([engine.OpenDB()], [time.Now()], the
      error of [sql.DB.Close]) is an argument of the method that asks. *)

From stdpp Require Import base gmap list.
From Stdlib Require Import ZArith Lia.

#[local] Set Warnings "-clear-no-such-hyp".

Open Scope Z_scope.

(** ** Values *)

(** [*sql.DB] *)
Abbreviation DB := (option nat) (only parsing).

(** [error]: [None] is Go's [nil] error. *)
Abbreviation error := (option nat) (only parsing).

(** [time.Time], as read from [time.Now()]. *)
Abbreviation Time := Z (only parsing).

(** The two results of [engine.OpenDB()]. *)
Abbreviation OpenResult := (option nat * option nat)%type (only parsing).

(** Go's [int] on a 64-bit platform. *)
Definition int_min : Z := - 2 ^ 63.
Definition int_max : Z := 2 ^ 63 - 1.

Definition is_int (z : Z) : Prop := int_min <= z <= int_max.

Definition wrap (z : Z) : Z := (z + 2 ^ 63) mod 2 ^ 64 - 2 ^ 63.
Arguments wrap : simpl never.

(** ** Effects *)

(** Calls that reach a live connection handle. *)
Inductive event : Type :=
  | EvClose (a : nat)
  | EvSetMaxIdleConns (a : nat) (conns : Z).

Inductive panic : Type :=
  | NilDereference
  | IndexOutOfRange.

Inductive result (A : Type) : Type :=
  | Returned (a : A)
  | Panicked (why : panic).
Arguments Returned {A} a.
Arguments Panicked {A} why.

(** The receiver's fields together with the trace of handle calls, oldest
    first. *)
Record world (S : Type) : Type := World { obj : S; trace : list event }.
Arguments World {S} obj trace.
Arguments obj {S} w.
Arguments trace {S} w.

Definition M (S A : Type) : Type := world S -> result A * world S.

Definition ret {S A} (a : A) : M S A := fun w => (Returned a, w).

Definition bind {S A B} (m : M S A) (k : A -> M S B) : M S B :=
  fun w =>
    match m w with
    | (Returned a, w') => k a w'
    | (Panicked why, w') => (Panicked why, w')
    end.

Definition throw {S A} (why : panic) : M S A := fun w => (Panicked why, w).

Definition get {S} : M S S := fun w => (Returned (obj w), w).

Definition modify {S} (f : S -> S) : M S unit :=
  fun w => (Returned tt, World (f (obj w)) (trace w)).

Definition emit {S} (e : event) : M S unit :=
  fun w => (Returned tt, World (obj w) (trace w ++ [e])).

(** The world a body leaves behind, whether it returned or panicked. *)
Definition after {S A} (m : M S A) (w : world S) : world S := (m w).2.

Declare Scope go_scope.
Delimit Scope go_scope with go.
Notation "x <- m ;; k" := (bind m (fun x => k))
  (at level 100, m at next level, right associativity) : go_scope.
Notation "m ;;; k" := (bind m (fun _ => k))
  (at level 100, right associativity) : go_scope.

Notation "w |> m" := (after m w)
  (at level 50, left associativity, only parsing) : go_scope.

(** [db.Close()] of database/sql on a [*sql.DB]: the method locks a field of
    its receiver first, so a nil receiver is a nil-pointer dereference. The
    error it returns is left to the caller of the model. *)
Definition db_Close {S} (db : DB) : M S unit :=
  match db with
  | None => throw NilDereference
  | Some a => emit (EvClose a)
  end.

(** [db.SetMaxIdleConns(conns)] of database/sql. *)
Definition db_SetMaxIdleConns {S} (db : DB) (conns : Z) : M S unit :=
  match db with
  | None => throw NilDereference
  | Some a => emit (EvSetMaxIdleConns a conns)
  end.

(** ** Slices *)

Definition in_range {A} (l : list A) (i : Z) : bool :=
  (0 <=? i) && (i <? Z.of_nat (length l)).
Arguments in_range : simpl never.

(** [l[i]], with Go's bounds check. *)
Definition index {S A} (l : list A) (i : Z) : M S A :=
  if in_range l i then
    match l !! Z.to_nat i with
    | Some x => ret x
    | None => throw IndexOutOfRange
    end
  else throw IndexOutOfRange.

(** ** NoneConnectPool *)

Module NoneConnectPool.

Record t : Type := Build {}.

Definition NewNoneConnectPool : t := Build.

Definition Init : M t error := ret None.

Definition RetrieveDB (open : OpenResult) : M t (DB * error) := ret open.

Definition ReleaseDB (db : DB) : M t unit := db_Close db.

Definition Close : M t error := ret None.

Definition SetMaxIdleConns (conns : Z) : M t unit := ret tt.

Definition MaxIdleConns : M t Z := ret 0.

(** A caller's use of the pool, one method call after the other; a panic
    ends the run. *)
Inductive call : Type :=
  | CallInit
  | CallRetrieveDB (open : OpenResult)
  | CallReleaseDB (d : DB)
  | CallClose
  | CallSetMaxIdleConns (conns : Z)
  | CallMaxIdleConns.

Definition do_call (c : call) : M t unit :=
  match c with
  | CallInit => (Init ;;; ret tt)%go
  | CallRetrieveDB open => (RetrieveDB open ;;; ret tt)%go
  | CallReleaseDB d => ReleaseDB d
  | CallClose => (Close ;;; ret tt)%go
  | CallSetMaxIdleConns conns => SetMaxIdleConns conns
  | CallMaxIdleConns => (MaxIdleConns ;;; ret tt)%go
  end.

Fixpoint do_calls (cs : list call) : M t unit :=
  match cs with
  | [] => ret tt
  | c :: cs' => (do_call c ;;; do_calls cs')%go
  end.

(** The live handle a call gives back to the pool, if it gives one. *)
Definition released (c : call) : option nat :=
  match c with
  | CallReleaseDB (Some a) => Some a
  | _ => None
  end.

Definition releases_nil (c : call) : bool :=
  match c with
  | CallReleaseDB None => true
  | _ => false
  end.

End NoneConnectPool.

(** ** SysConnectPool *)

Module SysConnectPool.

Record t : Type := Build { db : DB; maxIdleConns : Z }.

(** [&SysConnectPool{}]: both fields hold their zero value. *)
Definition NewSysConnectPool : t := Build None 0.

Definition set_db (d : DB) (s : t) : t := Build d (maxIdleConns s).
Definition set_maxIdleConns (n : Z) (s : t) : t := Build (db s) n.

Definition Init (open : OpenResult) : M t error :=
  (let '(d, err) := open in
   match err with
   | Some e => ret (Some e)
   | None =>
       modify (set_db d) ;;;
       modify (set_maxIdleConns 2) ;;;
       ret None
   end)%go.

Definition RetrieveDB : M t (DB * error) :=
  (p <- get ;; ret (db p, None))%go.

Definition ReleaseDB (d : DB) : M t unit := ret tt.

(** [cerr] is what the handle's [Close] answers. *)
Definition Close (cerr : error) : M t error :=
  (p <- get ;; db_Close (db p) ;;; ret cerr)%go.

Definition SetMaxIdleConns (conns : Z) : M t unit :=
  (p <- get ;;
   db_SetMaxIdleConns (db p) conns ;;;
   modify (set_maxIdleConns conns))%go.

Definition MaxIdleConns : M t Z :=
  (p <- get ;; ret (maxIdleConns p))%go.

(** A caller's use of the pool through [IConnectPool], one method call
    after the other; a panic ends the run. *)
Inductive call : Type :=
  | CallInit (open : OpenResult)
  | CallRetrieveDB
  | CallReleaseDB (d : DB)
  | CallClose (cerr : error)
  | CallSetMaxIdleConns (conns : Z)
  | CallMaxIdleConns.

Definition do_call (c : call) : M t unit :=
  match c with
  | CallInit open => (Init open ;;; ret tt)%go
  | CallRetrieveDB => (RetrieveDB ;;; ret tt)%go
  | CallReleaseDB d => ReleaseDB d
  | CallClose cerr => (Close cerr ;;; ret tt)%go
  | CallSetMaxIdleConns conns => SetMaxIdleConns conns
  | CallMaxIdleConns => (MaxIdleConns ;;; ret tt)%go
  end.

Fixpoint do_calls (cs : list call) : M t unit :=
  match cs with
  | [] => ret tt
  | c :: cs' => (do_call c ;;; do_calls cs')%go
  end.

Definition is_borrow (c : call) : bool :=
  match c with
  | CallRetrieveDB | CallReleaseDB _ => true
  | _ => false
  end.

Definition is_SetMaxIdleConns (c : call) : bool :=
  match c with
  | CallSetMaxIdleConns _ => true
  | _ => false
  end.

Definition is_Init (c : call) : bool :=
  match c with
  | CallInit _ => true
  | _ => false
  end.

(** The calls that reach no handle and write no field: an [Init] whose
    [OpenDB] fails, [RetrieveDB], [ReleaseDB] and [MaxIdleConns]. *)
Definition is_quiet (c : call) : bool :=
  match c with
  | CallInit (_, Some _) | CallRetrieveDB | CallReleaseDB _
  | CallMaxIdleConns => true
  | _ => false
  end.

(** The handle an event is a call on. *)
Definition event_handle (e : event) : nat :=
  match e with
  | EvClose a => a
  | EvSetMaxIdleConns a _ => a
  end.

End SysConnectPool.

(** ** SimpleConnectPool *)

Module SimpleConnectPool.

Record t : Type := Build {
  releasedConnects : list DB;
  cur : Z;
  usingConnects : gmap (option nat) Z;
  maxWaitTimeOut : Z;
  maxIdleConns : Z
}.

(** [make([]*sql.DB, 10)] is ten nil slots. *)
Definition NewSimpleConnectPool : t :=
  {| releasedConnects := replicate 10 None;
     usingConnects := ∅;
     cur := -1;
     maxWaitTimeOut := 14400;
     maxIdleConns := 10 |}.

Definition set_releasedConnects (l : list DB) (p : t) : t :=
  Build l (cur p) (usingConnects p) (maxWaitTimeOut p) (maxIdleConns p).
Definition set_cur (c : Z) (p : t) : t :=
  Build (releasedConnects p) c (usingConnects p) (maxWaitTimeOut p)
    (maxIdleConns p).
Definition set_usingConnects (u : gmap (option nat) Z) (p : t) : t :=
  Build (releasedConnects p) (cur p) u (maxWaitTimeOut p) (maxIdleConns p).
Definition set_maxIdleConns (n : Z) (p : t) : t :=
  Build (releasedConnects p) (cur p) (usingConnects p) (maxWaitTimeOut p) n.

(** [p.usingConnects[db] = now] *)
Definition track (db : DB) (now : Time) : M t unit :=
  modify (fun p => set_usingConnects (<[db := now]> (usingConnects p)) p).

(** [delete(p.usingConnects, db)] *)
Definition untrack (db : DB) : M t unit :=
  modify (fun p => set_usingConnects (delete db (usingConnects p)) p).

(** [p.releasedConnects[i] = db], with Go's bounds check. *)
Definition store (i : Z) (db : DB) : M t unit :=
  (p <- get ;;
   if in_range (releasedConnects p) i then
     modify (set_releasedConnects (<[Z.to_nat i := db]> (releasedConnects p)))
   else throw IndexOutOfRange)%go.

Definition Init : M t error := ret None.

Definition RetrieveDB (open : OpenResult) (now : Time) : M t (DB * error) :=
  (p <- get ;;
   if cur p <? 0 then
     let '(db, err) := open in
     match err with
     | Some e => ret (None, Some e)
     | None => track db now ;;; ret (db, None)
     end
   else
     db <- index (releasedConnects p) (cur p) ;;
     track db now ;;;
     store (cur p) None ;;;
     modify (set_cur (wrap (cur p - 1))) ;;;
     ret (db, None))%go.

Definition ReleaseDB (db : DB) : M t unit :=
  (p <- get ;;
   (if cur p >=? wrap (maxIdleConns p - 1) then db_Close db
    else
      modify (set_cur (wrap (cur p + 1))) ;;;
      q <- get ;;
      store (cur q) db) ;;;
   untrack db)%go.

(** The loop of [Close]: while the slice [l] held in [releasedConnects] is
    not empty, close its first slot and reslice from the second. *)
Fixpoint drain (l : list DB) : M t unit :=
  match l with
  | [] => ret tt
  | db :: l' =>
      (db_Close db ;;; modify (set_releasedConnects l') ;;; drain l')%go
  end.

Definition Close : M t error :=
  (p <- get ;; drain (releasedConnects p) ;;; ret None)%go.

Definition SetMaxIdleConns (conns : Z) : M t unit :=
  modify (set_maxIdleConns conns).

Definition MaxIdleConns : M t Z :=
  (p <- get ;; ret (maxIdleConns p))%go.

(** The handles of the idle stack: the slots at positions [0..cur]. *)
Definition idle (p : t) : list DB :=
  take (Z.to_nat (cur p + 1)) (releasedConnects p).

(** What the loop of [Close] does to a slice: it closes the handles in front
    of the first nil slot and stops there. *)
Fixpoint closed_by_drain (l : list DB) : list nat :=
  match l with
  | Some a :: l' => a :: closed_by_drain l'
  | _ => []
  end.

Fixpoint left_by_drain (l : list DB) : list DB :=
  match l with
  | Some _ :: l' => left_by_drain l'
  | _ => l
  end.

Definition fresh : world t := World NewSimpleConnectPool [].

(** The pools a program gets to by calling [RetrieveDB], [ReleaseDB] and
    [SetMaxIdleConns] on a new pool, with any handle passed to [ReleaseDB];
    only a call that returns leads on (a panic ends the program). [G] says
    which arguments of [SetMaxIdleConns] the program uses in which pool. *)
Inductive reach (G : t -> Z -> Prop) : world t -> Prop :=
  | reach_new : reach G fresh
  | reach_RetrieveDB w open now r w' :
      reach G w ->
      RetrieveDB open now w = (Returned r, w') ->
      reach G w'
  | reach_ReleaseDB w db w' :
      reach G w ->
      ReleaseDB db w = (Returned tt, w') ->
      reach G w'
  | reach_SetMaxIdleConns w conns w' :
      reach G w ->
      is_int conns ->
      G (obj w) conns ->
      SetMaxIdleConns conns w = (Returned tt, w') ->
      reach G w'.

Definition any_cap (p : t) (conns : Z) : Prop := True.

(** The cap is never set below the number of idle handles. *)
Definition cap_covers_idle (p : t) (conns : Z) : Prop :=
  Z.of_nat (length (idle p)) <= conns.

(** The cap stays within the ten slots of the backing slice. *)
Definition cap_within_slots (p : t) (conns : Z) : Prop :=
  0 <= conns <= 10.

(** Well-formed use: [lent] is the set of handles that [RetrieveDB] has
    returned and that have not been passed to [ReleaseDB] since, and
    [ReleaseDB] is only called on one of them. *)
Inductive wf_reach : world t -> gset (option nat) -> Prop :=
  | wf_new : wf_reach fresh ∅
  | wf_RetrieveDB_ok w lent open now db w' :
      wf_reach w lent ->
      RetrieveDB open now w = (Returned (db, None), w') ->
      wf_reach w' ({[db]} ∪ lent)
  | wf_RetrieveDB_err w lent open now db e w' :
      wf_reach w lent ->
      RetrieveDB open now w = (Returned (db, Some e), w') ->
      wf_reach w' lent
  | wf_ReleaseDB w lent db w' :
      wf_reach w lent ->
      db ∈ lent ->
      ReleaseDB db w = (Returned tt, w') ->
      wf_reach w' (lent ∖ {[db]})
  | wf_SetMaxIdleConns w lent conns w' :
      wf_reach w lent ->
      is_int conns ->
      SetMaxIdleConns conns w = (Returned tt, w') ->
      wf_reach w' lent
  | wf_Close w lent w' :
      wf_reach w lent ->
      Close w = (Returned None, w') ->
      wf_reach w' lent.

(** Concrete runs. Handles are numbered and every clock reading is 0. *)
Definition opened (a : nat) : OpenResult := (Some a, None).

(** One handle retrieved and released again. *)
Definition one_idle : world t :=
  (fresh |> RetrieveDB (opened 1) 0 |> ReleaseDB (Some 1%nat))%go.

(** Handles 1 and 2 retrieved, 1 released. *)
Definition one_idle_one_lent : world t :=
  (fresh |> RetrieveDB (opened 1) 0 |> RetrieveDB (opened 2) 0
         |> ReleaseDB (Some 1%nat))%go.

(** The cap lowered to 0 while a handle is idle. *)
Definition cap_lowered : world t :=
  (one_idle |> SetMaxIdleConns 0)%go.

(** Cap 1 and one idle handle. *)
Definition at_cap : world t :=
  (fresh |> SetMaxIdleConns 1 |> RetrieveDB (opened 1) 0
         |> ReleaseDB (Some 1%nat))%go.

(** Cap 2; 1 and 2 retrieved and released, 2 retrieved again from the idle
    stack and released again. *)
Definition both_released : world t :=
  (fresh |> SetMaxIdleConns 2
         |> RetrieveDB (opened 1) 0 |> RetrieveDB (opened 2) 0
         |> ReleaseDB (Some 1%nat) |> ReleaseDB (Some 2%nat)
         |> RetrieveDB (opened 3) 0 |> ReleaseDB (Some 2%nat))%go.

(** Handles 1, 2, 3 retrieved and released in that order. *)
Definition three_idle : world t :=
  (fresh |> RetrieveDB (opened 1) 0 |> RetrieveDB (opened 2) 0
         |> RetrieveDB (opened 3) 0
         |> ReleaseDB (Some 1%nat) |> ReleaseDB (Some 2%nat)
         |> ReleaseDB (Some 3%nat))%go.

(** Ten handles retrieved and all of them released: no slot is nil. *)
Definition all_idle : world t :=
  foldl (fun w a => (w |> ReleaseDB (Some a))%go)
    (foldl (fun w a => (w |> RetrieveDB (opened a) 0)%go) fresh (seq 1 10))
    (seq 1 10).

(** The slice of a pool whose idle stack holds the live handles [hs], oldest
    first: the handles in the first slots and nil in all the others. *)
Definition slots_of (hs : list nat) : list DB :=
  (Some <$> hs) ++ replicate (10 - length hs) None.

(** The pools a program gets to from a new pool by [RetrieveDB], by
    [ReleaseDB] of live (non-nil) handles, tracked or not, and by
    [SetMaxIdleConns] with any cap; only a call that returns leads on. *)
Inductive live_reach : world t -> Prop :=
  | live_new : live_reach fresh
  | live_RetrieveDB w open now r w' :
      live_reach w ->
      RetrieveDB open now w = (Returned r, w') ->
      live_reach w'
  | live_ReleaseDB w a w' :
      live_reach w ->
      ReleaseDB (Some a) w = (Returned tt, w') ->
      live_reach w'
  | live_SetMaxIdleConns w conns w' :
      live_reach w ->
      is_int conns ->
      SetMaxIdleConns conns w = (Returned tt, w') ->
      live_reach w'.

(** The slice and the cursor of a pool reached that way. *)
Definition live_inv (w : world t) : Prop :=
  exists hs,
    (length hs <= 10)%nat /\
    releasedConnects (obj w) = slots_of hs /\
    cur (obj w) = Z.of_nat (length hs) - 1.

(** A caller that asks for one connection after the other; each request
    comes with what [OpenDB] and the clock would answer. *)
Fixpoint retrieve_all (asks : list (OpenResult * Time))
  : M t (list (DB * error)) :=
  match asks with
  | [] => ret []
  | (open, now) :: asks' =>
      (r <- RetrieveDB open now ;;
       rs <- retrieve_all asks' ;;
       ret (r :: rs))%go
  end.

(** What [RetrieveDB] hands to its caller when it has to open a
    connection: the new handle, or the error and no handle. *)
Definition opened_answer (ask : OpenResult * Time) : DB * error :=
  match ask.1.2 with
  | Some e => (None, Some e)
  | None => (ask.1.1, None)
  end.

(** The handles among [asks] that [OpenDB] opened without an error. *)
Definition opened_handles (asks : list (OpenResult * Time)) : list DB :=
  omap (fun ask : OpenResult * Time =>
          match ask.1.2 with
          | Some _ => None
          | None => Some ask.1.1
          end) asks.

(** Well-formed use, without [Close], in which [OpenDB] never answers a
    handle that the pool has closed before. *)
Inductive safe_reach : world t -> gset (option nat) -> Prop :=
  | safe_new : safe_reach fresh ∅
  | safe_RetrieveDB_ok w lent open now db w' :
      safe_reach w lent ->
      (forall a, open.1 = Some a -> EvClose a ∉ trace w) ->
      RetrieveDB open now w = (Returned (db, None), w') ->
      safe_reach w' ({[db]} ∪ lent)
  | safe_RetrieveDB_err w lent open now db e w' :
      safe_reach w lent ->
      RetrieveDB open now w = (Returned (db, Some e), w') ->
      safe_reach w' lent
  | safe_ReleaseDB w lent db w' :
      safe_reach w lent ->
      db ∈ lent ->
      ReleaseDB db w = (Returned tt, w') ->
      safe_reach w' (lent ∖ {[db]})
  | safe_SetMaxIdleConns w lent conns w' :
      safe_reach w lent ->
      is_int conns ->
      SetMaxIdleConns conns w = (Returned tt, w') ->
      safe_reach w' lent.

(** Cap 1; handles 1 and 2 retrieved, 1 released and kept, 2 released and
    closed. *)
Definition one_closed : world t :=
  (fresh |> SetMaxIdleConns 1
         |> RetrieveDB (opened 1) 0 |> RetrieveDB (opened 2) 0
         |> ReleaseDB (Some 1%nat) |> ReleaseDB (Some 2%nat))%go.

(** Ten idle handles and the cap raised to 11. *)
Definition cap_above_slots : world t :=
  (all_idle |> SetMaxIdleConns 11)%go.




(** The invariant behind disjointness under well-formed use. *)
Definition wf_inv (w : world t) (lent : gset (option nat)) : Prop :=
  dom (usingConnects (obj w)) = lent /\
  -1 <= cur (obj w) <= 9 /\
  (length (releasedConnects (obj w)) <= 10)%nat /\
  NoDup (idle (obj w)) /\
  (forall db, db ∈ idle (obj w) -> db ∉ lent).

(** The invariant of a pool whose cap stays within the ten slots. *)
Definition slots_inv (w : world t) : Prop :=
  length (releasedConnects (obj w)) = 10%nat /\
  -1 <= cur (obj w) <= 9 /\
  0 <= maxIdleConns (obj w) <= 10.

(** The invariant of a pool whose cap is never set below the idle count. *)
Definition bound_inv (w : world t) : Prop :=
  length (releasedConnects (obj w)) = 10%nat /\
  -1 <= cur (obj w) <= 9 /\
  cur (obj w) + 1 <= maxIdleConns (obj w) /\
  is_int (maxIdleConns (obj w)).

End SimpleConnectPool.

(** * Facts *)

Lemma wrap_is_int z : is_int z -> wrap z = z.
Proof.
  unfold is_int, int_min, int_max, wrap. intros H.
  rewrite Z.mod_small; lia.
Qed.

Lemma wrap_range z : is_int (wrap z).
Proof.
  unfold is_int, int_min, int_max, wrap.
  pose proof (Z.mod_pos_bound (z + 2 ^ 63) (2 ^ 64)). lia.
Qed.

Lemma in_range_spec {A} (l : list A) i :
  in_range l i = true <-> 0 <= i < Z.of_nat (length l).
Proof. unfold in_range. rewrite andb_true_iff, Z.leb_le, Z.ltb_lt. tauto. Qed.

Module SysPoolFacts.
Import SysConnectPool.

Lemma Init_returned_nil open w w1 :
  Init open w = (Returned None, w1) ->
  open.2 = None /\ w1 = World (Build open.1 2) (trace w).
Proof.
  destruct open as [d [e|]], w as [[d0 n0] tr]; unfold Init; [done|].
  unfold bind, modify, ret. simpl. intros H. by inversion H.
Qed.

Lemma borrow_call_keeps_world c w :
  is_borrow c = true -> do_call c w = (Returned tt, w).
Proof. by destruct c. Qed.

Lemma borrow_calls_keep_world cs w :
  forallb is_borrow cs = true -> do_calls cs w = (Returned tt, w).
Proof.
  induction cs as [|c cs IH]; [done|]. simpl.
  intros [Hc Hcs]%andb_true_iff. unfold bind.
  by rewrite borrow_call_keeps_world, IH.
Qed.

Lemma other_call_keeps_cap c w r w' :
  is_SetMaxIdleConns c = false ->
  maxIdleConns (obj w) = 2 ->
  do_call c w = (r, w') ->
  maxIdleConns (obj w') = 2.
Proof.
  destruct w as [[d n] tr]. simpl. intros Hc -> Hrun.
  destruct c as [[d' [e|]]| |d'|cerr|conns|]; try done;
    try (by inversion Hrun).
  unfold do_call, Close, bind, get, db_Close, throw, emit, ret in Hrun.
  simpl in Hrun. destruct d; by inversion Hrun.
Qed.

Lemma other_calls_keep_cap cs :
  forall w r w',
    forallb (fun c => negb (is_SetMaxIdleConns c)) cs = true ->
    maxIdleConns (obj w) = 2 ->
    do_calls cs w = (r, w') ->
    maxIdleConns (obj w') = 2.
Proof.
  induction cs as [|c cs IH]; intros w r w'; simpl.
  - intros _ Hcap Hrun. by inversion Hrun; subst.
  - intros [Hc Hcs]%andb_true_iff Hcap. apply negb_true_iff in Hc.
    unfold bind. destruct (do_call c w) as [[[]|why] w1] eqn:Hcall.
    + intros Hrun. eapply IH; [done | | done].
      by eapply other_call_keeps_cap.
    + intros Hrun. inversion Hrun; subst.
      by eapply other_call_keeps_cap.
Qed.

(** ** The claims about [SysConnectPool] *)

(** C8. Once [Init] has returned a nil error, [RetrieveDB] returns the
    handle that [Init] kept, with a nil error, after any number of
    [RetrieveDB] and [ReleaseDB] calls; these calls all return and leave
    the handle in place. *)
Theorem RetrieveDB_after_Init open w w1 cs :
  Init open w = (Returned None, w1) ->
  forallb is_borrow cs = true ->
  exists w2,
    do_calls cs w1 = (Returned tt, w2) /\
    db (obj w2) = open.1 /\
    RetrieveDB w2 = (Returned (open.1, None), w2).
Proof.
  intros [_ ->]%Init_returned_nil Hcs. eexists.
  split; [by apply borrow_calls_keep_world|]. done.
Qed.

Lemma RetrieveDB_after_Init_witness :
  exists w2,
    do_calls [CallRetrieveDB; CallReleaseDB (Some 4%nat); CallRetrieveDB;
              CallRetrieveDB; CallReleaseDB None]
      (after (Init (Some 4%nat, None)) (World NewSysConnectPool [])) =
      (Returned tt, w2) /\
    db (obj w2) = Some 4%nat /\
    RetrieveDB w2 = (Returned (Some 4%nat, None), w2).
Proof.
  apply (RetrieveDB_after_Init (Some 4%nat, None)
           (World NewSysConnectPool [])); reflexivity.
Defined.

(** C9. Once [Init] has returned a nil error, [MaxIdleConns] returns 2,
    whatever the cap was before, and keeps returning 2 through any calls
    other than [SetMaxIdleConns], including one that panics. *)
Theorem MaxIdleConns_after_Init open w w1 cs r w2 :
  Init open w = (Returned None, w1) ->
  forallb (fun c => negb (is_SetMaxIdleConns c)) cs = true ->
  do_calls cs w1 = (r, w2) ->
  MaxIdleConns w1 = (Returned 2, w1) /\
  MaxIdleConns w2 = (Returned 2, w2).
Proof.
  intros [_ ->]%Init_returned_nil Hcs Hrun. split; [done|].
  apply (other_calls_keep_cap cs _ r w2 Hcs) in Hrun; [|done].
  unfold MaxIdleConns, bind, get, ret. by rewrite Hrun.
Qed.

Lemma MaxIdleConns_after_Init_witness :
  MaxIdleConns (after (Init (Some 4%nat, None))
                  (World (Build None 10) [])) =
    (Returned 2, after (Init (Some 4%nat, None)) (World (Build None 10) []))
  /\
  MaxIdleConns
    (after (do_calls [CallRetrieveDB; CallReleaseDB (Some 4%nat);
                      CallMaxIdleConns; CallClose None])
       (after (Init (Some 4%nat, None)) (World (Build None 10) []))) =
    (Returned 2,
     after (do_calls [CallRetrieveDB; CallReleaseDB (Some 4%nat);
                      CallMaxIdleConns; CallClose None])
       (after (Init (Some 4%nat, None)) (World (Build None 10) []))).
Proof.
  apply (MaxIdleConns_after_Init (Some 4%nat, None) (World (Build None 10) [])
           _ [CallRetrieveDB; CallReleaseDB (Some 4%nat); CallMaxIdleConns;
              CallClose None] (Returned tt)); reflexivity.
Defined.

End SysPoolFacts.

Module SimplePoolFacts.
Import SimpleConnectPool.

Ltac run_body :=
  repeat progress
    (cbv beta delta
       [RetrieveDB ReleaseDB Close SetMaxIdleConns MaxIdleConns Init
        track untrack store index bind get modify ret throw emit db_Close
        set_cur set_usingConnects set_releasedConnects set_maxIdleConns] in *;
     cbn [obj trace releasedConnects cur usingConnects maxWaitTimeOut
          maxIdleConns fst snd] in *).

Lemma RetrieveDB_returned open now w r w' :
  RetrieveDB open now w = (Returned r, w') ->
  (cur (obj w) < 0 /\
   ((exists e, open.2 = Some e /\ r = (None, Some e) /\ w' = w) \/
    (open.2 = None /\ r = (open.1, None) /\
     w' = World (set_usingConnects
                   (<[open.1 := now]> (usingConnects (obj w))) (obj w))
                (trace w)))) \/
  (0 <= cur (obj w) < Z.of_nat (length (releasedConnects (obj w))) /\
   exists db, releasedConnects (obj w) !! Z.to_nat (cur (obj w)) = Some db /\
     r = (db, None) /\
     w' = World (Build (<[Z.to_nat (cur (obj w)) := None]>
                          (releasedConnects (obj w)))
                       (wrap (cur (obj w) - 1))
                       (<[db := now]> (usingConnects (obj w)))
                       (maxWaitTimeOut (obj w)) (maxIdleConns (obj w)))
                (trace w)).
Proof.
  destruct w as [[rel c u mw mi] tr], open as [d err]. run_body.
  destruct (c <? 0) eqn:Hc.
  - apply Z.ltb_lt in Hc. intros H. left. split; [done|].
    destruct err as [e|]; inversion H; subst; eauto.
  - apply Z.ltb_ge in Hc.
    destruct (in_range rel c) eqn:Hr; [|done].
    apply in_range_spec in Hr.
    destruct (rel !! Z.to_nat c) as [db|] eqn:Hl; [|done].
    run_body. rewrite (proj2 (in_range_spec rel c) Hr). run_body.
    intros H. inversion H; subst. right. split; [done|]. by exists db.
Qed.

Lemma ReleaseDB_returned db w w' :
  ReleaseDB db w = (Returned tt, w') ->
  (wrap (maxIdleConns (obj w) - 1) <= cur (obj w) /\
   exists a, db = Some a /\
     w' = World (set_usingConnects (delete db (usingConnects (obj w))) (obj w))
                (trace w ++ [EvClose a])) \/
  (cur (obj w) < wrap (maxIdleConns (obj w) - 1) /\
   0 <= wrap (cur (obj w) + 1) < Z.of_nat (length (releasedConnects (obj w))) /\
   w' = World (Build (<[Z.to_nat (wrap (cur (obj w) + 1)) := db]>
                        (releasedConnects (obj w)))
                     (wrap (cur (obj w) + 1))
                     (delete db (usingConnects (obj w)))
                     (maxWaitTimeOut (obj w)) (maxIdleConns (obj w)))
              (trace w)).
Proof.
  destruct w as [[rel c u mw mi] tr]. run_body.
  destruct (c >=? wrap (mi - 1)) eqn:Hc.
  - apply Z.geb_le in Hc. intros H. left. split; [done|].
    destruct db as [a|]; inversion H; subst; eauto.
  - rewrite Z.geb_leb in Hc. apply Z.leb_gt in Hc.
    run_body. destruct (in_range rel (wrap (c + 1))) eqn:Hr; run_body; [|done].
    apply in_range_spec in Hr.
    intros H. inversion H; subst. by right.
Qed.

Lemma RetrieveDB_open_err p tr d e now :
  cur p < 0 ->
  RetrieveDB (d, Some e) now (World p tr) = (Returned (None, Some e), World p tr).
Proof.
  intros Hc. apply Z.ltb_lt in Hc. destruct p as [rel c u mw mi].
  run_body. by rewrite Hc.
Qed.

Lemma RetrieveDB_open_ok p tr d now :
  cur p < 0 ->
  RetrieveDB (d, None) now (World p tr) =
    (Returned (d, None),
     World (set_usingConnects (<[d := now]> (usingConnects p)) p) tr).
Proof.
  intros Hc. apply Z.ltb_lt in Hc. destruct p as [rel c u mw mi].
  run_body. by rewrite Hc.
Qed.

Lemma RetrieveDB_pop p tr open now db :
  0 <= cur p ->
  releasedConnects p !! Z.to_nat (cur p) = Some db ->
  RetrieveDB open now (World p tr) =
    (Returned (db, None),
     World (Build (<[Z.to_nat (cur p) := None]> (releasedConnects p))
                  (wrap (cur p - 1))
                  (<[db := now]> (usingConnects p))
                  (maxWaitTimeOut p) (maxIdleConns p)) tr).
Proof.
  intros Hc Hl. destruct p as [rel c u mw mi], open as [d err]. run_body.
  assert (in_range rel c = true) as Hr.
  { apply in_range_spec. apply lookup_lt_Some in Hl. lia. }
  apply Z.ltb_ge in Hc. rewrite Hc. run_body. rewrite Hr, Hl. run_body.
  by rewrite Hr.
Qed.

Lemma RetrieveDB_index_panic p tr open now :
  0 <= cur p ->
  Z.of_nat (length (releasedConnects p)) <= cur p ->
  RetrieveDB open now (World p tr) = (Panicked IndexOutOfRange, World p tr).
Proof.
  intros Hc Hlen. destruct p as [rel c u mw mi], open as [d err]. run_body.
  apply Z.ltb_ge in Hc. rewrite Hc. run_body.
  assert (in_range rel c = false) as ->; [|done].
  apply not_true_is_false. rewrite in_range_spec. simpl in *. lia.
Qed.

Lemma ReleaseDB_close p tr a :
  wrap (maxIdleConns p - 1) <= cur p ->
  ReleaseDB (Some a) (World p tr) =
    (Returned tt,
     World (set_usingConnects (delete (Some a) (usingConnects p)) p)
           (tr ++ [EvClose a])).
Proof.
  intros Hc. apply Z.geb_le in Hc. destruct p as [rel c u mw mi].
  run_body. by rewrite Hc.
Qed.

Lemma ReleaseDB_push p tr db :
  cur p < wrap (maxIdleConns p - 1) ->
  0 <= wrap (cur p + 1) < Z.of_nat (length (releasedConnects p)) ->
  ReleaseDB db (World p tr) =
    (Returned tt,
     World (Build (<[Z.to_nat (wrap (cur p + 1)) := db]> (releasedConnects p))
                  (wrap (cur p + 1))
                  (delete db (usingConnects p))
                  (maxWaitTimeOut p) (maxIdleConns p)) tr).
Proof.
  intros Hc Hr. apply in_range_spec in Hr. apply Z.leb_gt in Hc.
  rewrite <- Z.geb_leb in Hc. destruct p as [rel c u mw mi].
  run_body. rewrite Hc. run_body. by rewrite Hr.
Qed.

Lemma drain_run l :
  forall p tr,
    releasedConnects p = l ->
    drain l (World p tr) =
      (match left_by_drain l with
       | [] => Returned tt
       | _ => Panicked NilDereference
       end,
       World (set_releasedConnects (left_by_drain l) p)
             (tr ++ (EvClose <$> closed_by_drain l))).
Proof.
  induction l as [|[a|] l IH]; intros [rel c u mw mi] tr Hl;
    simpl in Hl; subst rel.
  - simpl. run_body. by rewrite app_nil_r.
  - simpl. run_body. rewrite IH by done. run_body.
    by rewrite <- app_assoc.
  - simpl. run_body. by rewrite app_nil_r.
Qed.

Lemma Close_run p tr :
  Close (World p tr) =
    (match left_by_drain (releasedConnects p) with
     | [] => Returned None
     | _ => Panicked NilDereference
     end,
     World (set_releasedConnects (left_by_drain (releasedConnects p)) p)
           (tr ++ (EvClose <$> closed_by_drain (releasedConnects p)))).
Proof.
  unfold Close, bind at 1, get. cbn [obj]. unfold bind.
  rewrite drain_run by done.
  by destruct (left_by_drain (releasedConnects p)).
Qed.

Lemma idle_empty p : cur p < 0 -> idle p = [].
Proof.
  intros Hc. unfold idle. by replace (Z.to_nat (cur p + 1)) with 0%nat by lia.
Qed.

Lemma take_pop (rel : list (option nat)) c db :
  0 <= c ->
  rel !! Z.to_nat c = Some db ->
  take (Z.to_nat (c + 1)) rel =
    take (Z.to_nat (c - 1 + 1)) (<[Z.to_nat c := None]> rel) ++ [db].
Proof.
  intros Hc Hl.
  replace (Z.to_nat (c + 1)) with (S (Z.to_nat c)) by lia.
  replace (c - 1 + 1) with c by lia.
  rewrite take_insert_ge by lia. by apply take_S_r.
Qed.

Lemma take_push (rel : list (option nat)) c db :
  0 <= c + 1 < Z.of_nat (length rel) ->
  take (Z.to_nat (c + 1 + 1)) (<[Z.to_nat (c + 1) := db]> rel) =
    take (Z.to_nat (c + 1)) rel ++ [db].
Proof.
  intros Hc.
  replace (Z.to_nat (c + 1 + 1)) with (S (Z.to_nat (c + 1))) by lia.
  rewrite (take_S_r _ _ db).
  - by rewrite take_insert_ge by lia.
  - apply list_lookup_insert_eq. lia.
Qed.

Lemma wf_inv_fresh : wf_inv fresh ∅.
Proof.
  unfold wf_inv, fresh; simpl.
  repeat split; first [lia | done | constructor | set_solver].
Qed.

Lemma wf_reach_inv w lent : wf_reach w lent -> wf_inv w lent.
Proof.
  induction 1 as [ | w lent open now db w' _ IH Hrun
                   | w lent open now db e w' _ IH Hrun
                   | w lent db w' _ IH Hin Hrun
                   | w lent conns w' _ IH _ Hrun
                   | w lent w' _ IH Hrun ].
  - apply wf_inv_fresh.
  - destruct IH as (Hdom & Hcur & Hlen & Hnd & Hdis).
    apply RetrieveDB_returned in Hrun
      as [[Hneg [(e & _ & Hr & _) | (_ & Hr & ->)]]
         | (Hpos & db' & Hl & Hr & ->)]; [done | |]; inversion Hr; subst db.
    + unfold wf_inv. rewrite idle_empty by done. simpl.
      rewrite dom_insert_L, Hdom.
      split_and!; try done; try lia. { constructor. } set_solver.
    + unfold wf_inv, idle in *. simpl.
      rewrite (take_pop _ _ _ (proj1 Hpos) Hl) in Hnd, Hdis.
      rewrite wrap_is_int by (unfold is_int, int_min, int_max; lia).
      rewrite dom_insert_L, Hdom, length_insert.
      apply NoDup_app in Hnd as (Hnd & Hnot & _).
      split_and!; try done; try lia.
      intros x Hx. specialize (Hnot x Hx). specialize (Hdis x).
      set_solver.
  - apply RetrieveDB_returned in Hrun
      as [[Hneg [(e' & _ & Hr & ->) | (_ & Hr & _)]]
         | (Hpos & db' & Hl & Hr & _)]; by inversion Hr.
  - destruct IH as (Hdom & Hcur & Hlen & Hnd & Hdis).
    apply ReleaseDB_returned in Hrun
      as [(_ & a & -> & ->) | (Hlt & Hr & ->)].
    + unfold wf_inv, idle in *. simpl. rewrite dom_delete_L, Hdom.
      split_and!; try done; try lia. intros x Hx. specialize (Hdis x Hx).
      set_solver.
    + rewrite wrap_is_int in * by (unfold is_int, int_min, int_max; lia).
      unfold wf_inv, idle in *. simpl.
      rewrite take_push by done. rewrite dom_delete_L, Hdom, length_insert.
      split_and!; try done; try lia.
      * apply NoDup_app. repeat split; [done | | apply NoDup_singleton].
        intros x Hx ->%list_elem_of_singleton. by apply (Hdis db).
      * intros x [Hx | ->%list_elem_of_singleton]%elem_of_app.
        -- specialize (Hdis x Hx). set_solver.
        -- set_solver.
  - inversion Hrun; subst. exact IH.
  - destruct IH as (Hdom & Hcur & Hlen & Hnd & Hdis).
    destruct w as [p tr]. rewrite Close_run in Hrun.
    destruct (left_by_drain (releasedConnects p)) eqn:Hleft; [|done].
    inversion Hrun; subst. unfold wf_inv, idle. simpl in *.
    rewrite take_nil. split_and!; try done; try lia.
    + constructor.
    + set_solver.
Qed.

Lemma small_is_int z : -1 <= z <= 10 -> is_int z.
Proof. unfold is_int, int_min, int_max. lia. Qed.

Lemma reach_slots_inv w : reach cap_within_slots w -> slots_inv w.
Proof.
  induction 1 as [ | w open now r w' _ IH Hrun
                   | w db w' _ IH Hrun
                   | w conns w' _ IH _ HG Hrun ].
  - unfold slots_inv, fresh; simpl. lia.
  - destruct IH as (Hlen & Hcur & Hcap).
    apply RetrieveDB_returned in Hrun
      as [[Hneg [(e & _ & _ & ->) | (_ & _ & ->)]]
         | (Hpos & db' & _ & _ & ->)]; unfold slots_inv; simpl; [done..|].
    rewrite length_insert, wrap_is_int by (apply small_is_int; lia). lia.
  - destruct IH as (Hlen & Hcur & Hcap).
    apply ReleaseDB_returned in Hrun
      as [(_ & a & -> & ->) | (Hlt & Hr & ->)]; unfold slots_inv; simpl;
      [done|].
    rewrite length_insert. lia.
  - destruct IH as (Hlen & Hcur & Hcap). inversion Hrun; subst.
    unfold slots_inv; simpl. unfold cap_within_slots in HG. lia.
Qed.

Lemma bound_inv_idle w :
  bound_inv w -> Z.of_nat (length (idle (obj w))) = cur (obj w) + 1.
Proof.
  intros (Hlen & Hcur & _). unfold idle. rewrite length_take_le; lia.
Qed.

Lemma reach_bound_inv w : reach cap_covers_idle w -> bound_inv w.
Proof.
  induction 1 as [ | w open now r w' _ IH Hrun
                   | w db w' _ IH Hrun
                   | w conns w' _ IH Hint HG Hrun ].
  - unfold bound_inv, fresh, is_int, int_min, int_max; simpl. lia.
  - destruct IH as (Hlen & Hcur & Hcap & Hint).
    apply RetrieveDB_returned in Hrun
      as [[Hneg [(e & _ & _ & ->) | (_ & _ & ->)]]
         | (Hpos & db' & _ & _ & ->)]; unfold bound_inv; simpl; [done..|].
    rewrite length_insert, wrap_is_int by (apply small_is_int; lia).
    split_and!; try done; lia.
  - destruct IH as (Hlen & Hcur & Hcap & Hint).
    apply ReleaseDB_returned in Hrun
      as [(_ & a & -> & ->) | (Hlt & Hr & ->)]; unfold bound_inv; simpl;
      [done|].
    rewrite length_insert.
    rewrite (wrap_is_int (cur (obj w) + 1)) in *
      by (apply small_is_int; lia).
    rewrite wrap_is_int in Hlt by (unfold is_int, int_min, int_max in *; lia).
    split_and!; try done; lia.
  - pose proof (bound_inv_idle _ IH) as Hidle.
    destruct IH as (Hlen & Hcur & Hcap & _). inversion Hrun; subst.
    unfold bound_inv; simpl. unfold cap_covers_idle in HG.
    split_and!; try done; lia.
Qed.

(** Stepping lemmas for concrete runs. *)
Lemma reach_after_RetrieveDB G w open now :
  reach G w ->
  (exists r, (RetrieveDB open now w).1 = Returned r) ->
  reach G (after (RetrieveDB open now) w).
Proof.
  intros Hw [r Hr]. unfold after.
  destruct (RetrieveDB open now w) as [r' w'] eqn:Hrun. simpl in *. subst r'.
  by eapply reach_RetrieveDB.
Qed.

Lemma reach_after_ReleaseDB G w db :
  reach G w ->
  (ReleaseDB db w).1 = Returned tt ->
  reach G (after (ReleaseDB db) w).
Proof.
  intros Hw Hr. unfold after.
  destruct (ReleaseDB db w) as [r' w'] eqn:Hrun. simpl in *. subst r'.
  by eapply reach_ReleaseDB.
Qed.

Lemma reach_after_SetMaxIdleConns G w conns :
  reach G w ->
  is_int conns ->
  G (obj w) conns ->
  reach G (after (SetMaxIdleConns conns) w).
Proof. intros Hw Hi HG. by eapply reach_SetMaxIdleConns. Qed.

Lemma wf_after_RetrieveDB w lent open now db :
  wf_reach w lent ->
  (RetrieveDB open now w).1 = Returned (db, None) ->
  wf_reach (after (RetrieveDB open now) w) ({[db]} ∪ lent).
Proof.
  intros Hw Hr. unfold after.
  destruct (RetrieveDB open now w) as [r' w'] eqn:Hrun. simpl in *. subst r'.
  by eapply wf_RetrieveDB_ok.
Qed.

Lemma wf_after_ReleaseDB w lent db :
  wf_reach w lent ->
  db ∈ lent ->
  (ReleaseDB db w).1 = Returned tt ->
  wf_reach (after (ReleaseDB db) w) (lent ∖ {[db]}).
Proof.
  intros Hw Hin Hr. unfold after.
  destruct (ReleaseDB db w) as [r' w'] eqn:Hrun. simpl in *. subst r'.
  by eapply wf_ReleaseDB.
Qed.

(** ** The claims about [SimpleConnectPool] *)

(** C7. A pool made by [NewSimpleConnectPool] has ten idle slots, all nil,
    the cursor at the empty mark -1, nothing in use, an idle cap of 10 and
    the unused [maxWaitTimeOut] at 14400; its idle stack is empty. *)
Theorem NewSimpleConnectPool_fields :
  releasedConnects NewSimpleConnectPool = replicate 10 None /\
  length (releasedConnects NewSimpleConnectPool) = 10%nat /\
  cur NewSimpleConnectPool = -1 /\
  usingConnects NewSimpleConnectPool = ∅ /\
  maxIdleConns NewSimpleConnectPool = 10 /\
  maxWaitTimeOut NewSimpleConnectPool = 14400 /\
  idle NewSimpleConnectPool = [].
Proof. by split_and!. Qed.

(** C5. With an empty idle stack, a failing [engine.OpenDB()] makes
    [RetrieveDB] return that error (and no handle) and leaves every field
    of the pool, and the trace, as it was. *)
Theorem RetrieveDB_open_failure p tr d e now :
  cur p < 0 ->
  RetrieveDB (d, Some e) now (World p tr) =
    (Returned (None, Some e), World p tr).
Proof. apply RetrieveDB_open_err. Qed.

Lemma RetrieveDB_open_failure_witness :
  RetrieveDB (None, Some 7%nat) 0 fresh = (Returned (None, Some 7%nat), fresh).
Proof.
  apply (RetrieveDB_open_failure NewSimpleConnectPool [] None 7%nat 0).
  simpl. lia.
Defined.

(** C4. Reuse is last in, first out: when [ReleaseDB db] has kept [db] in
    the idle stack, the next [RetrieveDB] returns [db], whatever
    [engine.OpenDB()] would have answered, and moves the cursor back by
    one without touching any handle. *)
Theorem RetrieveDB_returns_last_released w db w1 open now :
  ReleaseDB db w = (Returned tt, w1) ->
  cur (obj w) < wrap (maxIdleConns (obj w) - 1) ->
  exists w2,
    RetrieveDB open now w1 = (Returned (db, None), w2) /\
    trace w2 = trace w1 /\
    cur (obj w2) = wrap (cur (obj w1) - 1) /\
    usingConnects (obj w2) !! db = Some now.
Proof.
  intros Hrel Hlt.
  apply ReleaseDB_returned in Hrel as [(Hge & _) | (_ & Hr & ->)]; [lia|].
  eexists. split.
  - apply RetrieveDB_pop; simpl; [lia|].
    apply list_lookup_insert_eq. lia.
  - simpl. split_and!; try done. apply lookup_insert_eq.
Qed.

Lemma RetrieveDB_returns_last_released_witness :
  idle (obj (after (ReleaseDB (Some 2%nat)) one_idle_one_lent)) =
    [Some 1%nat; Some 2%nat] /\
  exists w2,
    RetrieveDB (opened 9) 5 (after (ReleaseDB (Some 2%nat)) one_idle_one_lent) =
      (Returned (Some 2%nat, None), w2) /\
    trace w2 = trace (after (ReleaseDB (Some 2%nat)) one_idle_one_lent) /\
    cur (obj w2) =
      wrap (cur (obj (after (ReleaseDB (Some 2%nat)) one_idle_one_lent)) - 1) /\
    usingConnects (obj w2) !! Some 2%nat = Some 5.
Proof.
  split; [reflexivity|].
  apply (RetrieveDB_returns_last_released one_idle_one_lent (Some 2%nat)).
  - reflexivity.
  - vm_compute. reflexivity.
Defined.







Lemma both_released_reach : reach cap_within_slots both_released.
Proof.
  unfold both_released.
  repeat first
    [ apply reach_after_ReleaseDB; [|reflexivity]
    | apply reach_after_RetrieveDB; [|eexists; reflexivity]
    | apply reach_after_SetMaxIdleConns;
        [|unfold is_int, int_min, int_max; lia|unfold cap_within_slots; lia]
    | apply reach_new ].
Defined.


(** C2, as stated, fails: [SetMaxIdleConns] only stores the new cap, so
    lowering it under the number of idle handles leaves more idle handles
    than the cap. After one handle was retrieved and released and the cap
    set to 0, one handle is idle. *)
Lemma idle_bound_fails_after_lowering_cap :
  reach any_cap cap_lowered /\
  Z.of_nat (length (idle (obj cap_lowered))) = 1 /\
  maxIdleConns (obj cap_lowered) = 0 /\
  ~ (forall w, reach any_cap w ->
       Z.of_nat (length (idle (obj w))) <= maxIdleConns (obj w)).
Proof.
  assert (reach any_cap cap_lowered) as Hreach.
  { unfold cap_lowered, one_idle.
    apply reach_after_SetMaxIdleConns;
      [|unfold is_int, int_min, int_max; lia|done].
    apply reach_after_ReleaseDB; [|reflexivity].
    apply reach_after_RetrieveDB; [|eexists; reflexivity].
    apply reach_new. }
  split_and!; [done | reflexivity | reflexivity |].
  intros Hbound. specialize (Hbound _ Hreach).
  vm_compute in Hbound. by apply Hbound.
Qed.

Lemma reach_any_cap G w : reach G w -> reach any_cap w.
Proof.
  induction 1 as [ | w open now r w' _ IH Hrun
                   | w db w' _ IH Hrun
                   | w conns w' _ IH Hint _ Hrun ].
  - apply reach_new.
  - by eapply reach_RetrieveDB.
  - by eapply reach_ReleaseDB.
  - by eapply reach_SetMaxIdleConns.
Qed.

Lemma reach_shape G w :
  reach G w ->
  length (releasedConnects (obj w)) = 10%nat /\
  -1 <= cur (obj w) <= 9 /\
  is_int (maxIdleConns (obj w)).
Proof.
  induction 1 as [ | w open now r w' _ IH Hrun
                   | w db w' _ IH Hrun
                   | w conns w' _ IH Hint _ Hrun ].
  - unfold fresh, is_int, int_min, int_max; simpl. lia.
  - destruct IH as (Hlen & Hcur & Hcap).
    apply RetrieveDB_returned in Hrun
      as [[Hneg [(e & _ & _ & ->) | (_ & _ & ->)]]
         | (Hpos & db' & _ & _ & ->)]; simpl; [done..|].
    rewrite length_insert, wrap_is_int by (apply small_is_int; lia).
    split_and!; try done; lia.
  - destruct IH as (Hlen & Hcur & Hcap).
    apply ReleaseDB_returned in Hrun
      as [(_ & a & -> & ->) | (Hlt & Hr & ->)]; simpl; [done|].
    rewrite length_insert.
    rewrite (wrap_is_int (cur (obj w) + 1)) in *
      by (apply small_is_int; lia).
    split_and!; try done; lia.
  - destruct IH as (Hlen & Hcur & Hcap). by inversion Hrun; subst.
Qed.

(** C2, amended. After any sequence of [RetrieveDB], [ReleaseDB] and
    [SetMaxIdleConns] on a new pool: if no [SetMaxIdleConns] of the
    sequence set the cap below the number of handles idle at that moment,
    the number of idle handles does not exceed the cap; and in any case
    [ReleaseDB] of a handle when the idle stack holds as many handles as
    the cap closes that handle, keeps the idle stack as it is, and the idle
    count equals the cap afterwards. *)
Theorem idle_bound_and_ReleaseDB_at_cap w :
  reach any_cap w ->
  (reach cap_covers_idle w ->
   Z.of_nat (length (idle (obj w))) <= maxIdleConns (obj w)) /\
  (forall a,
     Z.of_nat (length (idle (obj w))) = maxIdleConns (obj w) ->
     exists w',
       ReleaseDB (Some a) w = (Returned tt, w') /\
       trace w' = trace w ++ [EvClose a] /\
       idle (obj w') = idle (obj w) /\
       Z.of_nat (length (idle (obj w'))) = maxIdleConns (obj w')).
Proof.
  intros (Hlen & Hcur & Hint)%reach_shape. split.
  - intros Hinv%reach_bound_inv.
    rewrite (bound_inv_idle _ Hinv). by destruct Hinv as (_ & _ & Hcap & _).
  - intros a Hfull. destruct w as [p tr]. simpl in *.
    assert (Z.of_nat (length (idle p)) = cur p + 1) as Hidle
      by (unfold idle; rewrite length_take_le; lia).
    eexists. split.
    + apply ReleaseDB_close. rewrite wrap_is_int; [lia|].
      apply small_is_int. lia.
    + simpl. split_and!; [done | done |]. unfold idle in *. simpl. lia.
Qed.

Lemma at_cap_reach : reach cap_covers_idle at_cap.
Proof.
  unfold at_cap.
  apply reach_after_ReleaseDB; [|reflexivity].
  apply reach_after_RetrieveDB; [|eexists; reflexivity].
  apply reach_after_SetMaxIdleConns;
    [|unfold is_int, int_min, int_max; lia|unfold cap_covers_idle; simpl; lia].
  apply reach_new.
Defined.

Lemma idle_bound_and_ReleaseDB_at_cap_witness :
  Z.of_nat (length (idle (obj at_cap))) <= maxIdleConns (obj at_cap) /\
  (forall a,
     Z.of_nat (length (idle (obj at_cap))) = maxIdleConns (obj at_cap) ->
     exists w',
       ReleaseDB (Some a) at_cap = (Returned tt, w') /\
       trace w' = trace at_cap ++ [EvClose a] /\
       idle (obj w') = idle (obj at_cap) /\
       Z.of_nat (length (idle (obj w'))) = maxIdleConns (obj w')).
Proof.
  destruct (idle_bound_and_ReleaseDB_at_cap at_cap
              (reach_any_cap _ _ at_cap_reach)) as [Hbound Hfull].
  split; [apply Hbound, at_cap_reach | exact Hfull].
Defined.

(** C3. Under well-formed use of a new pool (every [ReleaseDB] is given a
    handle that [RetrieveDB] returned and that was not released since), no
    handle of the idle stack is a key of [usingConnects]. *)
Theorem idle_inUse_disjoint w lent :
  wf_reach w lent ->
  (list_to_set (idle (obj w)) : gset (option nat))
    ## dom (usingConnects (obj w)).
Proof.
  intros (Hdom & _ & _ & _ & Hdis)%wf_reach_inv.
  rewrite Hdom. intros db Hidle%elem_of_list_to_set Hlent.
  by apply (Hdis db).
Qed.

Lemma one_idle_one_lent_wf :
  wf_reach one_idle_one_lent
    (({[Some 2%nat]} ∪ ({[Some 1%nat]} ∪ ∅)) ∖ {[Some 1%nat]}).
Proof.
  unfold one_idle_one_lent.
  apply wf_after_ReleaseDB; [|vm_compute; tauto|reflexivity].
  apply wf_after_RetrieveDB; [|reflexivity].
  apply wf_after_RetrieveDB; [|reflexivity].
  apply wf_new.
Defined.

Lemma idle_inUse_disjoint_witness :
  (list_to_set (idle (obj one_idle_one_lent)) : gset (option nat))
    ## dom (usingConnects (obj one_idle_one_lent)).
Proof. apply (idle_inUse_disjoint _ _ one_idle_one_lent_wf). Defined.

Lemma three_idle_fields :
  obj three_idle =
    Build ([Some 1%nat; Some 2%nat; Some 3%nat] ++ replicate 7 None) 2 ∅
      14400 10 /\
  trace three_idle = [].
Proof. split; reflexivity. Qed.

(** C1 on the code. With [X], [Y], [Z] in the idle stack (slots 0 to 2,
    cursor 2) and seven nil slots behind them, [Close] closes [X], [Y] and
    [Z] and then calls [Close] on the nil fourth slot: it panics with a nil
    dereference instead of returning, and seven slots are left in
    [releasedConnects]. Handles in [usingConnects] are not closed. *)
Theorem Close_idle_XYZ_panics_on_nil_slot X Y Z u mw mi tr :
  Close (World (Build ([Some X; Some Y; Some Z] ++ replicate 7 None) 2 u
                  mw mi) tr) =
    (Panicked NilDereference,
     World (Build (replicate 7 None) 2 u mw mi)
           (tr ++ [EvClose X; EvClose Y; EvClose Z])).
Proof. by rewrite Close_run. Qed.

(** C10 on the code. The slice is emptied only when no slot is nil: with one
    idle handle in a new pool (cursor 0), [Close] closes it and panics on
    the nil second slot, and nine slots are left in [releasedConnects]. *)
Lemma Close_leaves_slots_behind :
  cur (obj one_idle) = 0 /\
  (Close one_idle).1 = Panicked NilDereference /\
  trace (after Close one_idle) = [EvClose 1%nat] /\
  releasedConnects (obj (after Close one_idle)) = replicate 9 None /\
  ~ (forall w, 0 <= cur (obj w) ->
       releasedConnects (obj (after Close w)) = []).
Proof.
  split_and!; try reflexivity.
  intros Hall. specialize (Hall one_idle). vm_compute in Hall.
  by specialize (Hall ltac:(discriminate)).
Qed.

(** X18. [Close] writes [releasedConnects] only: the cursor, the
    in-use map, the cap and [maxWaitTimeOut] are as before, whether [Close]
    returns or panics. When [Close] returns, [releasedConnects] is empty
    and the error is nil; so a pool whose cursor was at 0 or above still
    counts as non-empty: the next [RetrieveDB] does not ask for a new
    connection but indexes the empty slice at the cursor and panics. *)
Theorem Close_frame w r w' :
  Close w = (r, w') ->
  cur (obj w') = cur (obj w) /\
  usingConnects (obj w') = usingConnects (obj w) /\
  maxIdleConns (obj w') = maxIdleConns (obj w) /\
  maxWaitTimeOut (obj w') = maxWaitTimeOut (obj w) /\
  (forall e, r = Returned e ->
     e = None /\
     releasedConnects (obj w') = [] /\
     (0 <= cur (obj w) ->
      forall open now,
        RetrieveDB open now w' = (Panicked IndexOutOfRange, w'))).
Proof.
  destruct w as [p tr]. rewrite Close_run. intros Hrun.
  inversion Hrun as [[Hr Hw]]. simpl. split_and!; try done.
  intros e He.
  destruct (left_by_drain (releasedConnects p)) eqn:Hleft; [|done].
  inversion He. split_and!; try done.
  intros Hc open now. subst w'. by apply RetrieveDB_index_panic.
Qed.

Lemma Close_frame_witness :
  cur (obj (after Close all_idle)) = cur (obj all_idle) /\
  usingConnects (obj (after Close all_idle)) = usingConnects (obj all_idle) /\
  maxIdleConns (obj (after Close all_idle)) = maxIdleConns (obj all_idle) /\
  maxWaitTimeOut (obj (after Close all_idle)) =
    maxWaitTimeOut (obj all_idle) /\
  (forall e, (Close all_idle).1 = Returned e ->
     e = None /\
     releasedConnects (obj (after Close all_idle)) = [] /\
     (0 <= cur (obj all_idle) ->
      forall open now,
        RetrieveDB open now (after Close all_idle) =
          (Panicked IndexOutOfRange, after Close all_idle))).
Proof.
  apply (Close_frame all_idle (Close all_idle).1 (after Close all_idle)).
  reflexivity.
Defined.

End SimplePoolFacts.

(** * Further facts about [SimpleConnectPool] *)

Module SimplePoolMore.
Import SimpleConnectPool SimplePoolFacts.

Lemma slots_of_length hs :
  (length hs <= 10)%nat -> length (slots_of hs) = 10%nat.
Proof.
  intros Hn. unfold slots_of.
  rewrite length_app, length_fmap, length_replicate. lia.
Qed.

Lemma slots_of_live hs i :
  (i < length hs)%nat -> exists a, slots_of hs !! i = Some (Some a).
Proof.
  intros Hi. destruct (lookup_lt_is_Some_2 hs i Hi) as [a Ha]. exists a.
  unfold slots_of. rewrite lookup_app_l by (by rewrite length_fmap).
  by rewrite list_lookup_fmap, Ha.
Qed.

Lemma slots_of_nil hs i :
  (length hs <= i < 10)%nat -> slots_of hs !! i = Some None.
Proof.
  intros Hi. unfold slots_of.
  rewrite lookup_app_r by (rewrite length_fmap; lia).
  rewrite length_fmap. apply lookup_replicate_2. lia.
Qed.

Lemma slots_of_push hs a :
  (length hs < 10)%nat ->
  <[length hs := Some a]> (slots_of hs) = slots_of (hs ++ [a]).
Proof.
  intros Hn. unfold slots_of.
  rewrite insert_app_r_alt by (by rewrite length_fmap).
  rewrite length_fmap, Nat.sub_diag, fmap_app, length_app. simpl.
  replace (10 - length hs)%nat with (S (10 - (length hs + 1))) by lia.
  by rewrite <- app_assoc.
Qed.

Lemma slots_of_pop hs a :
  (length hs < 10)%nat ->
  <[length hs := None]> (slots_of (hs ++ [a])) = slots_of hs.
Proof.
  intros Hn. unfold slots_of.
  rewrite fmap_app, <- app_assoc, length_app. simpl.
  rewrite insert_app_r_alt by (by rewrite length_fmap).
  rewrite length_fmap, Nat.sub_diag. simpl.
  by replace (10 - length hs)%nat with (S (10 - (length hs + 1))) by lia.
Qed.

Lemma slots_of_idle hs : take (length hs) (slots_of hs) = Some <$> hs.
Proof.
  unfold slots_of. rewrite take_app_le by (by rewrite length_fmap).
  apply take_ge. by rewrite length_fmap.
Qed.

Lemma drain_live_then_nil hs n :
  closed_by_drain ((Some <$> hs) ++ replicate n None) = hs /\
  left_by_drain ((Some <$> hs) ++ replicate n None) = replicate n None.
Proof.
  induction hs as [|a hs [IHc IHl]].
  - by destruct n.
  - rewrite fmap_cons. cbn [app closed_by_drain left_by_drain].
    by rewrite IHc, IHl.
Qed.

Lemma live_reach_inv w : live_reach w -> live_inv w.
Proof.
  induction 1 as [ | w open now r w' _ IH Hrun
                   | w a w' _ IH Hrun
                   | w conns w' _ IH _ Hrun ].
  - exists []. split_and!; [simpl; lia | done | done].
  - destruct IH as (hs & Hn & Hrel & Hcur).
    apply RetrieveDB_returned in Hrun
      as [[Hneg [(e & _ & _ & ->) | (_ & _ & ->)]]
         | (Hpos & db' & _ & _ & ->)]; [by exists hs..|].
    destruct hs as [|h hs _] using rev_ind; [simpl in *; lia|].
    rewrite length_app in *. simpl in *.
    exists hs. unfold live_inv. simpl. rewrite Hrel, Hcur.
    replace (Z.to_nat (Z.of_nat (length hs + 1) - 1)) with (length hs) by lia.
    rewrite slots_of_pop by lia.
    rewrite wrap_is_int by (apply small_is_int; lia).
    split_and!; [lia | done | lia].
  - destruct IH as (hs & Hn & Hrel & Hcur).
    apply ReleaseDB_returned in Hrun
      as [(_ & a' & _ & ->) | (Hlt & Hr & ->)]; [by exists hs|].
    rewrite Hrel, slots_of_length in Hr by done.
    rewrite (wrap_is_int (cur (obj w) + 1)) in *
      by (apply small_is_int; lia).
    exists (hs ++ [a]). unfold live_inv. simpl. rewrite Hrel, Hcur.
    replace (Z.to_nat (Z.of_nat (length hs) - 1 + 1)) with (length hs) by lia.
    rewrite slots_of_push, length_app by lia. simpl.
    split_and!; [lia | done | lia].
  - inversion Hrun; subst. exact IH.
Qed.

Lemma live_after_RetrieveDB w open now :
  live_reach w ->
  (exists r, (RetrieveDB open now w).1 = Returned r) ->
  live_reach (after (RetrieveDB open now) w).
Proof.
  intros Hw [r Hr]. unfold after.
  destruct (RetrieveDB open now w) as [r' w'] eqn:Hrun. simpl in *. subst r'.
  by eapply live_RetrieveDB.
Qed.

Lemma live_after_ReleaseDB w a :
  live_reach w ->
  (ReleaseDB (Some a) w).1 = Returned tt ->
  live_reach (after (ReleaseDB (Some a)) w).
Proof.
  intros Hw Hr. unfold after.
  destruct (ReleaseDB (Some a) w) as [r' w'] eqn:Hrun. simpl in *. subst r'.
  by eapply live_ReleaseDB.
Qed.

Lemma live_after_SetMaxIdleConns w conns :
  live_reach w ->
  is_int conns ->
  live_reach (after (SetMaxIdleConns conns) w).
Proof. intros Hw Hi. by eapply live_SetMaxIdleConns. Qed.

Ltac live_run :=
  repeat first
    [ apply live_after_ReleaseDB; [|reflexivity]
    | apply live_after_RetrieveDB; [|eexists; reflexivity]
    | apply live_after_SetMaxIdleConns;
        [|unfold is_int, int_min, int_max; lia]
    | apply live_new ].

Lemma three_idle_live : live_reach three_idle.
Proof. unfold three_idle. live_run. Defined.

Lemma all_idle_live : live_reach all_idle.
Proof. unfold all_idle. cbn [foldl seq]. live_run. Defined.

(** ** Properties of the slice and of [Close] *)

(** X4. As long as no call has panicked: in every pool reached from a new
    one by calls of [RetrieveDB], [ReleaseDB] of live handles and
    [SetMaxIdleConns] that all returned, the slice keeps its ten slots, the
    cursor stays between -1 and 9, every slot up to the cursor holds a live
    handle and every slot above the cursor is nil. (A [ReleaseDB] that
    panics past the slots leaves the cursor at 10, see X9.) *)
Theorem live_slots_layout w :
  live_reach w ->
  length (releasedConnects (obj w)) = 10%nat /\
  -1 <= cur (obj w) <= 9 /\
  (forall i : nat, Z.of_nat i <= cur (obj w) ->
     exists a, releasedConnects (obj w) !! i = Some (Some a)) /\
  (forall i : nat, cur (obj w) < Z.of_nat i < 10 ->
     releasedConnects (obj w) !! i = Some None).
Proof.
  intros (hs & Hn & -> & ->)%live_reach_inv. split_and!.
  - by apply slots_of_length.
  - lia.
  - lia.
  - intros i Hi. apply slots_of_live. lia.
  - intros i Hi. apply slots_of_nil. lia.
Qed.

Lemma live_slots_layout_witness :
  length (releasedConnects (obj three_idle)) = 10%nat /\
  -1 <= cur (obj three_idle) <= 9 /\
  (forall i : nat, Z.of_nat i <= cur (obj three_idle) ->
     exists a, releasedConnects (obj three_idle) !! i = Some (Some a)) /\
  (forall i : nat, cur (obj three_idle) < Z.of_nat i < 10 ->
     releasedConnects (obj three_idle) !! i = Some None).
Proof. apply (live_slots_layout three_idle), three_idle_live. Defined.

(** X5. On every pool reached that way, by calls that all returned,
    [Close] closes exactly the handles of the idle stack, oldest first, and
    writes no field but the slice. There it returns (a nil error, the slice
    empty) only when the cursor is at 9, that is when all ten slots are
    idle handles; otherwise it panics with a nil dereference on the slot
    above the cursor and the nil slots are left in the slice. *)
Theorem Close_on_live_pool w :
  live_reach w ->
  exists hs,
    idle (obj w) = Some <$> hs /\
    Close w =
      (if cur (obj w) =? 9 then Returned None else Panicked NilDereference,
       World (set_releasedConnects
                (replicate (Z.to_nat (9 - cur (obj w))) None) (obj w))
             (trace w ++ (EvClose <$> hs))).
Proof.
  intros (hs & Hn & Hrel & Hcur)%live_reach_inv. exists hs.
  destruct w as [p tr]. simpl in *. split.
  - unfold idle. rewrite Hrel, Hcur.
    replace (Z.to_nat (Z.of_nat (length hs) - 1 + 1)) with (length hs) by lia.
    apply slots_of_idle.
  - rewrite Close_run, Hrel. unfold slots_of.
    destruct (drain_live_then_nil hs (10 - length hs)) as [-> ->].
    replace (Z.to_nat (9 - cur p)) with (10 - length hs)%nat by lia.
    destruct (Z.eqb_spec (cur p) 9) as [H9 | H9].
    + by replace (10 - length hs)%nat with 0%nat by lia.
    + by replace (10 - length hs)%nat with (S (9 - length hs)) by lia.
Qed.

Lemma Close_on_live_pool_witness :
  exists hs,
    idle (obj all_idle) = Some <$> hs /\
    Close all_idle =
      (if cur (obj all_idle) =? 9
       then Returned None else Panicked NilDereference,
       World (set_releasedConnects
                (replicate (Z.to_nat (9 - cur (obj all_idle))) None)
                (obj all_idle))
             (trace all_idle ++ (EvClose <$> hs))).
Proof. apply (Close_on_live_pool all_idle), all_idle_live. Defined.

(** X6. In a pool whose cap is kept within the ten slots, neither [RetrieveDB]
    nor [ReleaseDB] of a live handle ever panics, whatever [OpenDB]
    answers and whether the handle is tracked or not. *)
Theorem no_panic_within_slots w :
  reach cap_within_slots w ->
  (forall open now, exists r w', RetrieveDB open now w = (Returned r, w')) /\
  (forall a, exists w', ReleaseDB (Some a) w = (Returned tt, w')).
Proof.
  intros (Hlen & Hcur & Hcap)%reach_slots_inv.
  destruct w as [p tr]. simpl in *. split.
  - intros [d err] now. destruct (Z_lt_ge_dec (cur p) 0) as [Hneg | Hpos].
    + destruct err as [e|]; eexists _, _.
      * by apply RetrieveDB_open_err.
      * by apply RetrieveDB_open_ok.
    + destruct (lookup_lt_is_Some_2 (releasedConnects p) (Z.to_nat (cur p)))
        as [db Hdb]; [lia|].
      eexists _, _. apply RetrieveDB_pop; [lia | done].
  - intros a.
    assert (wrap (maxIdleConns p - 1) = maxIdleConns p - 1) as Hw1
      by (apply wrap_is_int, small_is_int; lia).
    assert (wrap (cur p + 1) = cur p + 1) as Hw2
      by (apply wrap_is_int, small_is_int; lia).
    destruct (Z_le_gt_dec (maxIdleConns p - 1) (cur p)) as [Hge | Hlt];
      eexists.
    + apply ReleaseDB_close. lia.
    + apply ReleaseDB_push; lia.
Qed.

Lemma no_panic_within_slots_witness :
  (forall open now,
     exists r w', RetrieveDB open now both_released = (Returned r, w')) /\
  (forall a, exists w', ReleaseDB (Some a) both_released = (Returned tt, w')).
Proof. apply (no_panic_within_slots both_released), both_released_reach. Defined.

(** ** How [RetrieveDB] and [ReleaseDB] compose *)

(** X7. Taking the top idle handle and giving it straight back restores the
    pool exactly (slice, cursor, in-use map and trace), provided the handle
    was not tracked as in use and the idle count is within the cap. *)
Theorem RetrieveDB_then_ReleaseDB_restores p tr open now db :
  0 <= cur p <= int_max ->
  releasedConnects p !! Z.to_nat (cur p) = Some db ->
  usingConnects p !! db = None ->
  cur p - 1 < wrap (maxIdleConns p - 1) ->
  (RetrieveDB open now ;;; ReleaseDB db)%go (World p tr) =
    (Returned tt, World p tr).
Proof.
  intros Hcur Hl Hnone Hcap. unfold bind at 1.
  rewrite (RetrieveDB_pop _ _ _ _ db) by (done || lia).
  assert (wrap (cur p - 1) = cur p - 1) as Hw1
    by (apply wrap_is_int; unfold is_int, int_min, int_max in *; lia).
  assert (wrap (cur p - 1 + 1) = cur p) as Hw2.
  { replace (cur p - 1 + 1) with (cur p) by lia.
    apply wrap_is_int. unfold is_int, int_min, int_max in *. lia. }
  pose proof (lookup_lt_Some _ _ _ Hl) as Hlt.
  rewrite ReleaseDB_push; simpl; rewrite ?Hw1, ?Hw2, ?length_insert;
    [|done|lia].
  rewrite list_insert_insert_eq, list_insert_id by done.
  rewrite delete_insert_eq, delete_id by done.
  by destruct p.
Qed.

Lemma RetrieveDB_then_ReleaseDB_restores_witness :
  (RetrieveDB (opened 9) 5 ;;; ReleaseDB (Some 3%nat))%go three_idle =
    (Returned tt, three_idle).
Proof.
  apply (RetrieveDB_then_ReleaseDB_restores (obj three_idle) (trace three_idle)
           (opened 9) 5 (Some 3%nat)).
  - vm_compute. split; discriminate.
  - reflexivity.
  - reflexivity.
  - vm_compute. reflexivity.
Defined.

(** X8. A handle released twice below the cap is not detected: it is stored in
    two slots, and the next two [RetrieveDB] calls both return it, without
    asking [OpenDB] and without any call on the handle. *)
Theorem double_ReleaseDB_lends_twice p tr db o1 n1 o2 n2 :
  -1 <= cur p ->
  cur p + 2 < Z.of_nat (length (releasedConnects p)) ->
  cur p + 2 <= int_max ->
  cur p + 1 < wrap (maxIdleConns p - 1) ->
  exists w',
    (ReleaseDB db ;;; ReleaseDB db ;;;
     r1 <- RetrieveDB o1 n1 ;;
     r2 <- RetrieveDB o2 n2 ;;
     ret (r1, r2))%go (World p tr) =
      (Returned ((db, None), (db, None)), w') /\
    trace w' = tr /\
    cur (obj w') = cur p.
Proof.
  intros Hlo Hlen Hmax Hcap.
  assert (forall z, -1 <= z <= cur p + 2 -> wrap z = z) as Hw.
  { intros z Hz. apply wrap_is_int.
    unfold is_int, int_min, int_max in *. lia. }
  pose proof (Hw (cur p + 1) ltac:(lia)) as Hw1.
  pose proof (Hw (cur p + 1 + 1) ltac:(lia)) as Hw2.
  pose proof (Hw (cur p + 1 + 1 - 1) ltac:(lia)) as Hw3.
  pose proof (Hw (cur p + 1 - 1) ltac:(lia)) as Hw4.
  unfold bind at 1. rewrite ReleaseDB_push by (rewrite ?Hw1; lia).
  rewrite Hw1.
  unfold bind at 1. rewrite ReleaseDB_push;
    simpl; rewrite ?length_insert, ?Hw2; try lia.
  unfold bind at 1. rewrite (RetrieveDB_pop _ _ _ _ db); simpl; [|lia|].
  2: { apply list_lookup_insert_eq. rewrite length_insert. lia. }
  rewrite Hw3.
  unfold bind at 1. rewrite (RetrieveDB_pop _ _ _ _ db); simpl; [|lia|].
  2: { replace (cur p + 1 + 1 - 1) with (cur p + 1) by lia.
       rewrite list_lookup_insert_ne by lia.
       rewrite list_lookup_insert_ne by lia.
       apply list_lookup_insert_eq. lia. }
  eexists. split; [reflexivity|]. simpl. split; [done|].
  replace (cur p + 1 + 1 - 1 - 1) with (cur p + 1 - 1) by lia.
  rewrite Hw4. lia.
Qed.

Lemma double_ReleaseDB_lends_twice_witness :
  exists w',
    (ReleaseDB (Some 1%nat) ;;; ReleaseDB (Some 1%nat) ;;;
     r1 <- RetrieveDB (opened 8) 1 ;;
     r2 <- RetrieveDB (opened 9) 2 ;;
     ret (r1, r2))%go (after (RetrieveDB (opened 1) 0) fresh) =
      (Returned ((Some 1%nat, None), (Some 1%nat, None)), w') /\
    trace w' = [] /\
    cur (obj w') = -1.
Proof.
  apply (double_ReleaseDB_lends_twice
           (obj (after (RetrieveDB (opened 1) 0) fresh)) []
           (Some 1%nat) (opened 8) 1 (opened 9) 2);
    vm_compute; first [discriminate | reflexivity].
Defined.

(** ** Bounds *)

(** X9. When the cap lets [ReleaseDB] keep a handle but the cursor is already
    at the last slot of the slice (a cap raised above the ten slots, or a
    slice shortened by [Close]), [ReleaseDB] panics with an index out of
    range after it has advanced the cursor: the handle is neither closed nor
    removed from the in-use map, the slice is as before, and the cursor now
    points past the slice, so that the next [RetrieveDB] panics as well. *)
Theorem ReleaseDB_past_slots_panics p tr db :
  -1 <= cur p < int_max ->
  cur p < wrap (maxIdleConns p - 1) ->
  Z.of_nat (length (releasedConnects p)) <= cur p + 1 ->
  ReleaseDB db (World p tr) =
    (Panicked IndexOutOfRange, World (set_cur (cur p + 1) p) tr) /\
  forall open now,
    RetrieveDB open now (World (set_cur (cur p + 1) p) tr) =
      (Panicked IndexOutOfRange, World (set_cur (cur p + 1) p) tr).
Proof.
  intros Hcur Hcap Hlen.
  assert (wrap (cur p + 1) = cur p + 1) as Hw
    by (apply wrap_is_int; unfold is_int, int_min, int_max in *; lia).
  split.
  - destruct p as [rel c u mw mi]. simpl in *. run_body.
    apply Z.leb_gt in Hcap. rewrite <- Z.geb_leb in Hcap. rewrite Hcap.
    run_body. rewrite Hw.
    assert (in_range rel (c + 1) = false) as ->; [|done].
    apply not_true_is_false. rewrite in_range_spec. lia.
  - intros open now. apply RetrieveDB_index_panic; simpl; lia.
Qed.



Lemma ReleaseDB_past_slots_panics_witness :
  ReleaseDB (Some 11%nat) cap_above_slots =
    (Panicked IndexOutOfRange,
     World (set_cur (cur (obj cap_above_slots) + 1) (obj cap_above_slots))
           (trace cap_above_slots)) /\
  forall open now,
    RetrieveDB open now
      (World (set_cur (cur (obj cap_above_slots) + 1) (obj cap_above_slots))
             (trace cap_above_slots)) =
      (Panicked IndexOutOfRange,
       World (set_cur (cur (obj cap_above_slots) + 1) (obj cap_above_slots))
             (trace cap_above_slots)).
Proof.
  apply (ReleaseDB_past_slots_panics (obj cap_above_slots)
           (trace cap_above_slots) (Some 11%nat)).
  - vm_compute. split; [discriminate | reflexivity].
  - vm_compute. reflexivity.
  - vm_compute. discriminate.
Defined.

(** X10. With the cap at the smallest [int], [maxIdleConns-1] wraps around to the
    largest [int]: [ReleaseDB] keeps the handle in the idle stack although
    the cap is negative. *)
Theorem ReleaseDB_min_cap_retains p tr db :
  maxIdleConns p = int_min ->
  -1 <= cur p ->
  cur p + 1 < Z.of_nat (length (releasedConnects p)) ->
  cur p + 1 <= int_max ->
  ReleaseDB db (World p tr) =
    (Returned tt,
     World (Build (<[Z.to_nat (cur p + 1) := db]> (releasedConnects p))
                  (cur p + 1)
                  (delete db (usingConnects p))
                  (maxWaitTimeOut p) (maxIdleConns p)) tr).
Proof.
  intros Hmin Hlo Hlen Hmax.
  assert (wrap (maxIdleConns p - 1) = int_max) as Hcap
    by (rewrite Hmin; reflexivity).
  assert (cur p + 1 <= 2 ^ 63 - 1) as Hmax' by exact Hmax.
  clear Hmin Hmax.
  assert (wrap (cur p + 1) = cur p + 1) as Hw
    by (apply wrap_is_int; unfold is_int, int_min, int_max; lia).
  rewrite ReleaseDB_push.
  - by rewrite Hw.
  - rewrite Hcap. unfold int_max. lia.
  - rewrite Hw. lia.
Qed.

Lemma ReleaseDB_min_cap_retains_witness :
  ReleaseDB (Some 1%nat)
    (after (SetMaxIdleConns int_min) (after (RetrieveDB (opened 1) 0) fresh)) =
    (Returned tt,
     World (Build (Some 1%nat :: replicate 9 None) 0 ∅ 14400 int_min) []).
Proof.
  apply (ReleaseDB_min_cap_retains
           (obj (after (SetMaxIdleConns int_min)
                   (after (RetrieveDB (opened 1) 0) fresh))) []
           (Some 1%nat)); vm_compute; first [discriminate | reflexivity].
Defined.

(** ** Opening and tracking *)

(** X11. While the idle stack is empty, [RetrieveDB] never waits and never
    reuses: each of any number of requests in a row is answered with
    exactly what [OpenDB] gave for it (the new handle, or the error and no
    handle); the slice, the cursor, the cap and the trace stay as they
    were, and the handles opened are added to the keys of the in-use map.
    No bound on the number of handles in use applies. *)
Theorem retrieve_all_opens_each asks :
  forall p tr,
    cur p < 0 ->
    exists u',
      retrieve_all asks (World p tr) =
        (Returned (opened_answer <$> asks),
         World (set_usingConnects u' p) tr) /\
      dom u' = dom (usingConnects p) ∪ list_to_set (opened_handles asks).
Proof.
  induction asks as [|[[d err] now] asks IH]; intros p tr Hcur.
  - exists (usingConnects p). split; [by destruct p | set_solver].
  - cbn [retrieve_all]. unfold bind at 1. destruct err as [e|].
    + rewrite RetrieveDB_open_err by done.
      destruct (IH p tr Hcur) as (u' & Hrun & Hdom).
      unfold bind at 1. rewrite Hrun. by exists u'.
    + rewrite RetrieveDB_open_ok by done.
      destruct (IH (set_usingConnects (<[d := now]> (usingConnects p)) p) tr
                   Hcur) as (u' & Hrun & Hdom).
      unfold bind at 1. rewrite Hrun. exists u'. split; [done|].
      rewrite Hdom. simpl. rewrite dom_insert_L.
      unfold opened_handles. simpl. set_solver.
Qed.

Lemma retrieve_all_opens_each_witness :
  exists u',
    retrieve_all [(opened 1, 0); ((None, Some 5%nat), 1); (opened 2, 2)]
      fresh =
      (Returned (opened_answer <$>
                   [(opened 1, 0); ((None, Some 5%nat), 1); (opened 2, 2)]),
       World (set_usingConnects u' NewSimpleConnectPool) []) /\
    dom u' =
      dom (usingConnects NewSimpleConnectPool) ∪
      list_to_set
        (opened_handles
           [(opened 1, 0); ((None, Some 5%nat), 1); (opened 2, 2)]).
Proof.
  apply (retrieve_all_opens_each
           [(opened 1, 0); ((None, Some 5%nat), 1); (opened 2, 2)]
           NewSimpleConnectPool []).
  simpl. lia.
Defined.

(** X1. Under well-formed use, a handle that [RetrieveDB] returns with a nil
    error is, when the call returns, a key of the in-use map with the time
    of the call as its value, and is not in the idle stack. *)
Theorem RetrieveDB_tracks_returned_handle w lent open now db w' :
  wf_reach w lent ->
  RetrieveDB open now w = (Returned (db, None), w') ->
  usingConnects (obj w') !! db = Some now /\
  db ∉ idle (obj w').
Proof.
  intros Hwf Hrun.
  pose proof (wf_reach_inv _ _ (wf_RetrieveDB_ok _ _ _ _ _ _ Hwf Hrun))
    as (_ & _ & _ & _ & Hdis).
  split.
  - apply RetrieveDB_returned in Hrun
      as [[_ [(e & _ & Hr & _) | (_ & Hr & ->)]]
         | (_ & db' & _ & Hr & ->)]; [done | |]; inversion Hr; subst;
      simpl; apply lookup_insert_eq.
  - intros Hin. apply (Hdis db Hin). set_solver.
Qed.

Lemma RetrieveDB_tracks_returned_handle_witness :
  usingConnects (obj (after (RetrieveDB (opened 9) 7) one_idle_one_lent))
    !! Some 1%nat = Some 7 /\
  Some 1%nat ∉ idle (obj (after (RetrieveDB (opened 9) 7) one_idle_one_lent)).
Proof.
  apply (RetrieveDB_tracks_returned_handle one_idle_one_lent _ (opened 9) 7
           (Some 1%nat) _ one_idle_one_lent_wf).
  reflexivity.
Defined.

(** X2. In every pool reached under well-formed use by calls that all
    returned, the keys of the in-use map are exactly the handles that
    [RetrieveDB] has returned and that no [ReleaseDB] that returned was
    given since. *)
Theorem usingConnects_keys_are_lent w lent :
  wf_reach w lent -> dom (usingConnects (obj w)) = lent.
Proof. by intros (Hdom & _)%wf_reach_inv. Qed.

Lemma usingConnects_keys_are_lent_witness :
  dom (usingConnects (obj one_idle_one_lent)) =
    ({[Some 2%nat]} ∪ ({[Some 1%nat]} ∪ ∅)) ∖ {[Some 1%nat]}.
Proof.
  apply (usingConnects_keys_are_lent one_idle_one_lent _ one_idle_one_lent_wf).
Defined.

(** X3. Under well-formed use no handle is twice in the idle stack, so the idle
    stack never hands one handle to two callers. *)
Theorem idle_stack_NoDup w lent :
  wf_reach w lent -> NoDup (idle (obj w)).
Proof. by intros (_ & _ & _ & Hnd & _)%wf_reach_inv. Qed.

Lemma idle_stack_NoDup_witness : NoDup (idle (obj one_idle_one_lent)).
Proof.
  apply (idle_stack_NoDup one_idle_one_lent _ one_idle_one_lent_wf).
Defined.

(** ** Closed handles *)

Lemma safe_reach_wf w lent : safe_reach w lent -> wf_reach w lent.
Proof.
  induction 1; eauto using wf_new, wf_RetrieveDB_ok, wf_RetrieveDB_err,
    wf_ReleaseDB, wf_SetMaxIdleConns.
Qed.

Lemma safe_reach_closed w lent :
  safe_reach w lent ->
  forall a,
    EvClose a ∈ trace w -> (Some a ∉ idle (obj w)) /\ (Some a ∉ lent).
Proof.
  induction 1 as [ | w lent open now db w' Hsafe IH Hopen Hrun
                   | w lent open now db e w' Hsafe IH Hrun
                   | w lent db w' Hsafe IH Hin Hrun
                   | w lent conns w' Hsafe IH _ Hrun ]; intros a Ha.
  - by apply elem_of_nil in Ha.
  - pose proof (wf_reach_inv _ _ (safe_reach_wf _ _ Hsafe))
      as (_ & Hcur & _ & _ & _).
    apply RetrieveDB_returned in Hrun
      as [[Hneg [(e & _ & Hr & _) | (Hok & Hr & ->)]]
         | (Hpos & db' & Hl & Hr & ->)]; [done | |]; inversion Hr; subst db;
      simpl in *; destruct (IH a Ha) as [Hidle Hlent].
    + rewrite idle_empty by done. split; [by intros ?%elem_of_nil|].
      intros [Heq%elem_of_singleton | ?]%elem_of_union; [|done].
      by apply (Hopen a).
    + unfold idle in *. simpl.
      rewrite (take_pop _ _ _ (proj1 Hpos) Hl) in Hidle.
      rewrite wrap_is_int by (apply small_is_int; lia).
      split; [set_solver|].
      intros [Heq%elem_of_singleton | ?]%elem_of_union; [|done].
      apply Hidle. set_solver.
  - apply RetrieveDB_returned in Hrun
      as [[Hneg [(e' & _ & Hr & ->) | (_ & Hr & _)]]
         | (Hpos & db' & Hl & Hr & _)];
      first [by apply IH | by inversion Hr].
  - pose proof (wf_reach_inv _ _ (safe_reach_wf _ _ Hsafe))
      as (_ & Hcur & Hlen & _ & Hdis).
    apply ReleaseDB_returned in Hrun
      as [(_ & a0 & -> & ->) | (Hlt & Hr & ->)]; simpl in *.
    + apply elem_of_app in Ha as [Ha | Ha%list_elem_of_singleton].
      * destruct (IH a Ha). split; [done | set_solver].
      * inversion Ha; subst a0. split; [|set_solver].
        intros Hidle. by apply (Hdis _ Hidle).
    + destruct (IH a Ha) as [Hidle Hlent].
      rewrite wrap_is_int in * by (apply small_is_int; lia).
      unfold idle in *. simpl. rewrite take_push by done.
      split; [|set_solver].
      intros [? | Heq%list_elem_of_singleton]%elem_of_app; [done|].
      apply Hlent. by rewrite Heq.
  - inversion Hrun; subst. by apply IH.
Qed.

(** X12. The pool never hands out a handle that it has closed. Under
    well-formed use, when [OpenDB] does not answer closed handles, a handle
    that the pool has closed is neither in the idle stack nor a key of the
    in-use map, and no handle that [RetrieveDB] returns has been closed. *)
Theorem closed_handle_never_returned w lent :
  safe_reach w lent ->
  (forall a, EvClose a ∈ trace w ->
     (Some a ∉ idle (obj w)) /\ usingConnects (obj w) !! Some a = None) /\
  (forall open now a w',
     (forall a', open.1 = Some a' -> EvClose a' ∉ trace w) ->
     RetrieveDB open now w = (Returned (Some a, None), w') ->
     EvClose a ∉ trace w').
Proof.
  intros Hsafe. split.
  - intros a Ha. destruct (safe_reach_closed _ _ Hsafe a Ha) as [Hidle Hlent].
    split; [done|]. apply not_elem_of_dom.
    by rewrite (proj1 (wf_reach_inv _ _ (safe_reach_wf _ _ Hsafe))).
  - intros open now a w' Hopen Hrun Ha.
    pose proof (safe_RetrieveDB_ok _ _ _ _ _ _ Hsafe Hopen Hrun) as Hsafe'.
    destruct (safe_reach_closed _ _ Hsafe' a Ha) as [_ Hlent].
    set_solver.
Qed.

Lemma safe_after_RetrieveDB w lent open now db :
  safe_reach w lent ->
  (forall a, open.1 = Some a -> EvClose a ∉ trace w) ->
  (RetrieveDB open now w).1 = Returned (db, None) ->
  safe_reach (after (RetrieveDB open now) w) ({[db]} ∪ lent).
Proof.
  intros Hw Hopen Hr. unfold after.
  destruct (RetrieveDB open now w) as [r' w'] eqn:Hrun. simpl in *. subst r'.
  by eapply safe_RetrieveDB_ok.
Qed.

Lemma safe_after_ReleaseDB w lent db :
  safe_reach w lent ->
  db ∈ lent ->
  (ReleaseDB db w).1 = Returned tt ->
  safe_reach (after (ReleaseDB db) w) (lent ∖ {[db]}).
Proof.
  intros Hw Hin Hr. unfold after.
  destruct (ReleaseDB db w) as [r' w'] eqn:Hrun. simpl in *. subst r'.
  by eapply safe_ReleaseDB.
Qed.

Lemma one_closed_safe :
  safe_reach one_closed
    ((({[Some 2%nat]} ∪ ({[Some 1%nat]} ∪ ∅)) ∖ {[Some 1%nat]})
       ∖ {[Some 2%nat]}).
Proof.
  unfold one_closed.
  apply safe_after_ReleaseDB; [|vm_compute; tauto|reflexivity].
  apply safe_after_ReleaseDB; [|vm_compute; tauto|reflexivity].
  apply safe_after_RetrieveDB;
    [|by intros a _ Hin%elem_of_nil|reflexivity].
  apply safe_after_RetrieveDB;
    [|by intros a _ Hin%elem_of_nil|reflexivity].
  eapply safe_SetMaxIdleConns; [apply safe_new | | reflexivity].
  unfold is_int, int_min, int_max. lia.
Defined.

Lemma closed_handle_never_returned_witness :
  (forall a, EvClose a ∈ trace one_closed ->
     (Some a ∉ idle (obj one_closed)) /\
     usingConnects (obj one_closed) !! Some a = None) /\
  (forall open now a w',
     (forall a', open.1 = Some a' -> EvClose a' ∉ trace one_closed) ->
     RetrieveDB open now one_closed = (Returned (Some a, None), w') ->
     EvClose a ∉ trace w').
Proof. apply (closed_handle_never_returned _ _ one_closed_safe). Defined.

End SimplePoolMore.

(** * Further facts about [SysConnectPool] *)

Module SysPoolMore.
Import SysConnectPool.

Lemma quiet_call_keeps_world c w :
  is_quiet c = true -> do_call c w = (Returned tt, w).
Proof. by destruct c as [[d [e|]]| | | | |]. Qed.

Lemma kept_handle_call c a n tr :
  is_Init c = false ->
  exists n' evs,
    do_call c (World (Build (Some a) n) tr) =
      (Returned tt, World (Build (Some a) n') (tr ++ evs)) /\
    Forall (fun e => event_handle e = a) evs.
Proof.
  destruct c as [open| |d|cerr|conns|]; intros Hc; try done.
  - exists n, []. by rewrite app_nil_r.
  - exists n, []. by rewrite app_nil_r.
  - exists n, [EvClose a]. split; [done|]. by repeat constructor.
  - exists conns, [EvSetMaxIdleConns a conns]. split; [done|].
    by repeat constructor.
  - exists n, []. by rewrite app_nil_r.
Qed.

(** X13. An [Init] whose [OpenDB] fails returns that error and changes nothing,
    and [RetrieveDB], [ReleaseDB] and [MaxIdleConns] change nothing either:
    after any number of such calls a new pool is still without a handle,
    and [RetrieveDB] hands out a nil handle together with a nil error. *)
Theorem RetrieveDB_without_Init cs tr :
  forallb is_quiet cs = true ->
  (forall d e w, Init (d, Some e) w = (Returned (Some e), w)) /\
  do_calls cs (World NewSysConnectPool tr) =
    (Returned tt, World NewSysConnectPool tr) /\
  RetrieveDB (World NewSysConnectPool tr) =
    (Returned (None, None), World NewSysConnectPool tr).
Proof.
  intros Hcs. split_and!; [done | | done].
  induction cs as [|c cs IH]; [done|]. simpl in *.
  apply andb_true_iff in Hcs as [Hc Hcs]. unfold bind.
  by rewrite quiet_call_keeps_world, IH.
Qed.

Lemma RetrieveDB_without_Init_witness :
  (forall d e w, Init (d, Some e) w = (Returned (Some e), w)) /\
  do_calls [CallInit (None, Some 3%nat); CallRetrieveDB; CallMaxIdleConns]
    (World NewSysConnectPool []) =
    (Returned tt, World NewSysConnectPool []) /\
  RetrieveDB (World NewSysConnectPool []) =
    (Returned (None, None), World NewSysConnectPool []).
Proof.
  apply (RetrieveDB_without_Init
           [CallInit (None, Some 3%nat); CallRetrieveDB; CallMaxIdleConns] []).
  reflexivity.
Defined.

(** X14. Once [Init] has kept a live handle, the pool calls no other handle:
    through any calls other than [Init] the run never panics, the handle
    kept stays the same, and every call the pool makes on a handle (a
    [Close] or a [SetMaxIdleConns]) is a call on that handle. *)
Theorem only_kept_handle_is_called cs :
  forall a n tr,
    forallb (fun c => negb (is_Init c)) cs = true ->
    exists n' evs,
      do_calls cs (World (Build (Some a) n) tr) =
        (Returned tt, World (Build (Some a) n') (tr ++ evs)) /\
      Forall (fun e => event_handle e = a) evs.
Proof.
  induction cs as [|c cs IH]; intros a n tr Hcs.
  - exists n, []. by rewrite app_nil_r.
  - simpl in Hcs. apply andb_true_iff in Hcs as [Hc Hcs].
    apply negb_true_iff in Hc.
    destruct (kept_handle_call c a n tr Hc) as (n1 & evs1 & Hrun1 & Hall1).
    destruct (IH a n1 (tr ++ evs1) Hcs) as (n2 & evs2 & Hrun2 & Hall2).
    exists n2, (evs1 ++ evs2). cbn [do_calls]. unfold bind.
    rewrite Hrun1, Hrun2, app_assoc. split; [done|].
    by apply Forall_app.
Qed.

Lemma only_kept_handle_is_called_witness :
  exists n' evs,
    do_calls [CallRetrieveDB; CallSetMaxIdleConns 5; CallClose None;
              CallReleaseDB (Some 8%nat); CallClose (Some 1%nat)]
      (World (Build (Some 4%nat) 2) []) =
      (Returned tt, World (Build (Some 4%nat) n') ([] ++ evs)) /\
    Forall (fun e => event_handle e = 4%nat) evs.
Proof.
  apply (only_kept_handle_is_called
           [CallRetrieveDB; CallSetMaxIdleConns 5; CallClose None;
            CallReleaseDB (Some 8%nat); CallClose (Some 1%nat)] 4%nat 2 []).
  reflexivity.
Defined.

(** X15. [Close] hands back the error of the handle's [Close] unchanged and
    keeps the handle: a [RetrieveDB] after it still returns the closed
    handle with a nil error, and a second [Close] closes the handle again.
    On a pool without a handle [Close] panics with a nil dereference. *)
Theorem Close_keeps_handle p tr e1 e2 :
  (e <- Close e1 ;; r <- RetrieveDB ;; e' <- Close e2 ;; ret (e, r, e'))%go
    (World p tr) =
    match db p with
    | Some a =>
        (Returned (e1, (Some a, None), e2),
         World p ((tr ++ [EvClose a]) ++ [EvClose a]))
    | None => (Panicked NilDereference, World p tr)
    end.
Proof. destruct p as [[a|] n]; reflexivity. Qed.

(** X16. [SetMaxIdleConns] passes the cap on to the handle first and then stores
    it, so that [MaxIdleConns] returns it; on a pool without a handle it
    panics with a nil dereference and the cap is not stored. *)
Theorem SetMaxIdleConns_then_MaxIdleConns p tr conns :
  (SetMaxIdleConns conns ;;; MaxIdleConns)%go (World p tr) =
    match db p with
    | Some a =>
        (Returned conns,
         World (Build (Some a) conns) (tr ++ [EvSetMaxIdleConns a conns]))
    | None => (Panicked NilDereference, World p tr)
    end.
Proof. destruct p as [[a|] n]; reflexivity. Qed.

End SysPoolMore.

(** * Facts about [NoneConnectPool] *)

Module NonePoolFacts.
Import NoneConnectPool.

(** X17. The pool without pooling closes exactly what it is given back: as long
    as no nil handle is released, any run of calls returns, and the calls
    it has made on handles are one [Close] for each released handle, in the
    order of the releases. [RetrieveDB] hands on both results of [OpenDB]
    as they are, and [MaxIdleConns] is 0 whatever was set. *)
Theorem NoneConnectPool_closes_released cs :
  forall w,
    forallb (fun c => negb (releases_nil c)) cs = true ->
    do_calls cs w =
      (Returned tt, World (obj w) (trace w ++ (EvClose <$> omap released cs)))
    /\
    (forall open w', RetrieveDB open w' = (Returned open, w')) /\
    MaxIdleConns (after (do_calls cs) w) =
      (Returned 0, after (do_calls cs) w).
Proof.
  induction cs as [|c cs IH]; intros [p tr] Hcs.
  - simpl. by rewrite app_nil_r.
  - simpl in Hcs. apply andb_true_iff in Hcs as [Hc Hcs].
    split_and!; [|done|done].
    cbn [do_calls]. unfold bind.
    destruct c as [|open|[a|]| |conns|]; try done; simpl;
      try (by destruct (IH (World p tr) Hcs) as [-> _]).
    destruct (IH (World p (tr ++ [EvClose a])) Hcs) as [-> _].
    simpl. by rewrite <- app_assoc.
Qed.

Lemma NoneConnectPool_closes_released_witness :
  do_calls [CallRetrieveDB (Some 1%nat, None); CallSetMaxIdleConns 7;
            CallReleaseDB (Some 1%nat); CallClose;
            CallReleaseDB (Some 2%nat)] (World NewNoneConnectPool []) =
    (Returned tt,
     World NewNoneConnectPool
       ([] ++ (EvClose <$>
                 omap released
                   [CallRetrieveDB (Some 1%nat, None); CallSetMaxIdleConns 7;
                    CallReleaseDB (Some 1%nat); CallClose;
                    CallReleaseDB (Some 2%nat)])))
  /\
  (forall open w', RetrieveDB open w' = (Returned open, w')) /\
  MaxIdleConns
    (after (do_calls [CallRetrieveDB (Some 1%nat, None);
                      CallSetMaxIdleConns 7; CallReleaseDB (Some 1%nat);
                      CallClose; CallReleaseDB (Some 2%nat)])
       (World NewNoneConnectPool [])) =
    (Returned 0,
     after (do_calls [CallRetrieveDB (Some 1%nat, None);
                      CallSetMaxIdleConns 7; CallReleaseDB (Some 1%nat);
                      CallClose; CallReleaseDB (Some 2%nat)])
       (World NewNoneConnectPool [])).
Proof.
  apply (NoneConnectPool_closes_released
           [CallRetrieveDB (Some 1%nat, None); CallSetMaxIdleConns 7;
            CallReleaseDB (Some 1%nat); CallClose;
            CallReleaseDB (Some 2%nat)] (World NewNoneConnectPool [])).
  reflexivity.
Defined.

End NonePoolFacts.
